(** * lessgo: handler identity registry and pooled dispatch adapter

    A shallow embedding of [apihandler.go], [virthandler.go] and
    [engine/fasthttp/server.go], with the properties of the registry, of the
    path decomposition and of the dispatch cycle proved over it.

    Go strings are byte sequences, so they are [string]s here (one [ascii]
    per byte) and Go's [<] on strings is [String.ltb].  Slices are headers
    into a store of backing arrays, so that the in-place sort, the in-place
    removal of duplicates and the write of [Required] are seen by every
    holder of the same array.  Pointers to descriptors are addresses into a
    store of objects. *)

From Stdlib Require Import Ascii.
From stdpp Require Import gmap strings list sorting.


(** * Part I: the embedding *)

(** ** Strings, order and the library functions the code calls *)

(** Go's [s1 < s2] on strings: byte-wise lexical order. *)
Definition str_lt (s1 s2 : string) : Prop := String.ltb s1 s2 = true.

Global Instance str_lt_dec : RelDecision str_lt :=
  λ s1 s2, decide (String.ltb s1 s2 = true).

(** [sort.Strings] puts a slice in increasing byte-wise order.  Equal strings
    cannot be told apart, so the result is the one sorted arrangement of the
    elements, whatever algorithm computes it. *)
Definition sortStrings (l : list string) : list string := merge_sort String.le l.

(** [strings.Join(elems, sep)]. *)
Definition strings_Join (elems : list string) (sep : string) : string :=
  String.concat sep elems.

(** [s] with the prefix [pre] removed, when it starts with it. *)
Fixpoint stripPrefix (pre s : string) : option string :=
  match pre with
  | EmptyString => Some s
  | String c pre' =>
      match s with
      | EmptyString => None
      | String d s' => if decide (c = d) then stripPrefix pre' s' else None
      end
  end.

(** [strings.Cut(s, sep)]: the text before and after the first instance of
    [sep], or [None] when [sep] does not occur. *)
Fixpoint strings_Cut (s sep : string) : option (string * string) :=
  match stripPrefix sep s with
  | Some rest => Some (EmptyString, rest)
  | None =>
      match s with
      | EmptyString => None
      | String c s' =>
          match strings_Cut s' sep with
          | Some (before, after) => Some (String c before, after)
          | None => None
          end
      end
  end.

(** [strings.Split(s, sep)] for a non-empty [sep]: cut at the first instance
    of [sep], keep what is before it, go on with what is after it.  Every
    round consumes at least one byte, so [String.length s] rounds are enough. *)
Fixpoint Split_rounds (rounds : nat) (s sep : string) : list string :=
  match strings_Cut s sep with
  | None => [s]
  | Some (before, after) =>
      match rounds with
      | O => [before]
      | S rounds' => before :: Split_rounds rounds' after sep
      end
  end.

Definition strings_Split (s sep : string) : list string :=
  Split_rounds (String.length s) s sep.

(** [path.Clean]: the elements of the path between slashes are read from left
    to right; empty elements and [.] are dropped, [..] removes the element
    before it, is dropped at the root of a rooted path and is kept at the
    start of a path that is not rooted.  The empty result is [.]. *)
Definition path_elements (p : string) : list string := strings_Split p "/".

Definition clean_step (rooted : bool) (out : list string) (e : string) : list string :=
  if decide (e = "") then out
  else if decide (e = ".") then out
  else if decide (e = "..") then
    match out with
    | [] => if rooted then [] else [".."]
    | top :: out' =>
        if rooted then out'
        else if decide (top = "..") then ".." :: out else out'
    end
  else e :: out.

Definition is_rooted (p : string) : bool :=
  match p with
  | String "/"%char _ => true
  | _ => false
  end.

Definition path_Clean (p : string) : string :=
  if decide (p = "") then "."
  else
    let rooted := is_rooted p in
    let out := rev (fold_left (clean_step rooted) (path_elements p) []) in
    if rooted then "/" +:+ strings_Join out "/"
    else match out with
         | [] => "."
         | _ => strings_Join out "/"
         end.

(** [path.Join]: the elements from the first non-empty one on, joined by
    slashes and cleaned; the empty string when every element is empty. *)
Fixpoint path_Join (elems : list string) : string :=
  match elems with
  | [] => ""
  | e :: rest =>
      if decide (e = "") then path_Join rest
      else path_Clean (strings_Join elems "/")
  end.

(** ** Slices over a store of backing arrays *)

(** A slice header: the address of its backing array, the offset of its
    first element in it, and its length.  The nil slice has length 0. *)
Record Slice := mkSlice { base : nat; off : nat; len : nat }.

Definition nilSlice : Slice := mkSlice 0 0 0.

Definition setLen (s : Slice) (n : nat) : Slice := mkSlice (base s) (off s) n.

Section Arrays.
Context {T : Type}.

(** The elements a slice shows. *)
Definition readSlice (m : list (list T)) (s : Slice) : list T :=
  take (len s) (drop (off s) (m !!! base s)).

(** [arr] with [w] written over it from position [o] on. *)
Definition overwrite (o : nat) (w arr : list T) : list T :=
  take o arr ++ w ++ drop (o + length w) arr.

(** The backing array of [s] with [w] written from the start of [s] on. *)
Definition writeSlice (m : list (list T)) (s : Slice) (w : list T) : list (list T) :=
  alter (overwrite (off s) w) (base s) m.

(** A new backing array holding [l], and the slice over all of it. *)
Definition allocArray (m : list (list T)) (l : list T) : list (list T) * Slice :=
  (m ++ [l], mkSlice (length m) 0 (length l)).

(** [s[i] = x]; out of range it panics ([None]). *)
Definition setIndex (m : list (list T)) (s : Slice) (i : nat) (x : T)
  : option (list (list T)) :=
  if decide (i < len s) then Some (alter (λ arr, <[off s + i := x]> arr) (base s) m)
  else None.

(** [s[i]]; out of range it panics ([None]). *)
Definition getIndex (m : list (list T)) (s : Slice) (i : nat) : option T :=
  readSlice m s !! i.

(** The slice lies inside an allocated array. *)
Definition inArray (m : list (list T)) (s : Slice) : Prop :=
  ∃ arr, m !! base s = Some arr ∧ off s + len s ≤ length arr.

(** A slice a program can hold: an empty one, as the nil slice is, or one
    that lies inside an allocated array. *)
Definition validSlice (m : list (list T)) (s : Slice) : Prop :=
  len s = 0 ∨ inArray m s.

End Arrays.

(** ** Descriptors *)

(** What [reflect] and [runtime] tell of a dispatchable value: a function
    value has the name [runtime.FuncForPC(v.Pointer()).Name()] reports, any
    other value has the string of its type. *)
Inductive Dispatchable :=
| Func (name : string)
| NonFunc (typeString : string).

(** An [interface{}] value kept only as an example of a parameter. *)
Inductive Example :=
| ExNil
| ExString (s : string)
| ExInt (n : Z)
| ExBool (b : bool).

Record Param := mkParam {
  p_Name : string;
  p_In : string;
  p_Required : bool;
  p_Format : Example;
  p_Desc : string
}.

Definition zeroParam : Param := mkParam "" "" false ExNil "".

Definition setRequired (p : Param) (b : bool) : Param :=
  mkParam (p_Name p) (p_In p) b (p_Format p) (p_Desc p).

(** [ApiHandler]; its [lock] guards one instance only and is left out. *)
Record ApiHandler := mkApiHandler {
  Desc : string;
  Types : Slice;
  methods : list string;
  Params : Slice;
  Handler : Dispatchable;
  id : string;
  suffix : string;
  inited : bool
}.

Definition zeroApiHandler : ApiHandler :=
  mkApiHandler "" nilSlice [] nilSlice (Func "") "" "" false.

(** Modelled from the spec: the method constants are declared outside the
    files listed; they are the names of the standard method set. *)
Definition CONNECT : string := "CONNECT".
Definition DELETE : string := "DELETE".
Definition GET : string := "GET".
Definition HEAD : string := "HEAD".
Definition OPTIONS : string := "OPTIONS".
Definition PATCH : string := "PATCH".
Definition POST : string := "POST".
Definition PUT : string := "PUT".
Definition TRACE : string := "TRACE".

Definition allMethods : list string :=
  [CONNECT; DELETE; GET; HEAD; OPTIONS; PATCH; POST; PUT; TRACE].

(** ** The operation registry ([apihandler.go]) *)

(** The arrays behind the [Types] and [Params] slices, the [ApiHandler]
    objects behind the pointers, and the two package variables:
    [apiHandlerMap] and the ordered list [DefLessgo.apiHandlers]. *)
Record ApiStore := mkApiStore {
  strArrays : list (list string);
  paramArrays : list (list Param);
  objects : list ApiHandler;
  apiHandlerMap : gmap string nat;
  apiHandlers : list nat
}.

Definition emptyApiStore : ApiStore := mkApiStore [] [] [] ∅ [].

(** [*p] *)
Definition deref (σ : ApiStore) (p : nat) : ApiHandler :=
  default zeroApiHandler (objects σ !! p).

Definition ApiHandler_Id (a : ApiHandler) : string := id a.

Definition ApiHandler_Suffix (a : ApiHandler) : string := suffix a.

Definition getApiHandler (σ : ApiStore) (i : string) : option nat :=
  apiHandlerMap σ !! i.

(** The identities of the descriptors in [DefLessgo.apiHandlers], in order. *)
Definition enumerateIds (σ : ApiStore) : list string :=
  (λ p, ApiHandler_Id (deref σ p)) <$> apiHandlers σ.

(** [setApiHandler]: the loop stops at the first [vh2] with
    [vh.Id() < vh2.Id()] and rebuilds the list with [vh] at that index;
    when it finds none, [vh] is appended. *)
Definition setApiHandler (vh : nat) (σ : ApiStore) : ApiStore :=
  let vhId := ApiHandler_Id (deref σ vh) in
  let list' :=
    match list_find (λ vh2, str_lt vhId (ApiHandler_Id (deref σ vh2))) (apiHandlers σ) with
    | Some (i, _) => take i (apiHandlers σ) ++ [vh] ++ drop i (apiHandlers σ)
    | None => apiHandlers σ ++ [vh]
    end in
  mkApiStore (strArrays σ) (paramArrays σ) (objects σ)
             (<[vhId := vh]> (apiHandlerMap σ)) list'.

(** The loop of [initParamsAndSuffix] over the indices of [a.Params]: [w] is
    what the slice shows, written in place. *)
Definition initParamsAndSuffix_body (st : list Param * string) (i : nat)
  : list Param * string :=
  let '(w, suf) := st in
  match w !! i with
  | Some p =>
      if decide (p_In p = "path")
      then (<[i := setRequired p true]> w, suf +:+ ("/:" +:+ p_Name p))
      else (w, suf)
  | None => (w, suf)
  end.

Definition initParamsAndSuffix_loop (w : list Param) : list Param * string :=
  fold_left initParamsAndSuffix_body (seq 0 (length w)) (w, "").

Definition initParamsAndSuffix (pars : list (list Param)) (a : ApiHandler)
  : list (list Param) * ApiHandler :=
  let '(w, suf) := initParamsAndSuffix_loop (readSlice pars (Params a)) in
  (writeSlice pars (Params a) w,
   mkApiHandler (Desc a) (Types a) (methods a) (Params a) (Handler a) (id a) suf (inited a)).

(** [initId] *)
Definition bracketed (add : string) (m : string) : string := add +:+ "[" +:+ m +:+ "]".

Definition initId (strs : list (list string)) (a : ApiHandler) : ApiHandler :=
  let add := "[" +:+ suffix a +:+ "][" +:+ Desc a +:+ "]" in
  let add := fold_left bracketed (readSlice strs (Types a)) add in
  let i := match Handler a with
           | Func name => name +:+ add
           | NonFunc typeString => typeString +:+ add
           end in
  mkApiHandler (Desc a) (Types a) (methods a) (Params a) (Handler a) i (suffix a) (inited a).

Section ApiHandler.

(** [GetMethodFromType] is declared outside the files listed. *)
Variable GetMethodFromType : string → string.

(** The loop of [initTypes].  [w] is the part of the backing array that
    [a.Types] showed when the loop started, [tlen] is the current
    [len(a.Types)], [count] and [i] are the variables of the loop.  Removing
    index [i] moves the elements after it one place down inside the array
    and shortens the slice; the place after the new end keeps its old value.
    Every round makes [count - i] smaller, so [count] rounds are enough. *)
Fixpoint initTypes_loop (rounds i count tlen : nat) (w ms : list string)
  : list string * nat * list string :=
  match rounds with
  | O => (w, tlen, ms)
  | S rounds' =>
      if decide (i < count) then
        match w !! i with
        | Some t =>
            if decide (0 < i ∧ w !! (i - 1) = Some t) then
              initTypes_loop rounds' i (count - 1) (tlen - 1)
                (take i w ++ drop (i + 1) (take tlen w) ++ drop (tlen - 1) w) ms
            else
              initTypes_loop rounds' (i + 1) count tlen w (ms ++ [GetMethodFromType t])
        | None => (w, tlen, ms)
        end
      else (w, tlen, ms)
  end.

Definition initTypes (strs : list (list string)) (a : ApiHandler)
  : list (list string) * ApiHandler :=
  let count := len (Types a) in
  let '(strs, types) :=
    if decide (count = 0) then allocArray strs allMethods else (strs, Types a) in
  let strs := writeSlice strs types (sortStrings (readSlice strs types)) in
  let '(w, tlen, ms) :=
    initTypes_loop count 0 count (len types) (readSlice strs types) (methods a) in
  (writeSlice strs types w,
   mkApiHandler (Desc a) (setLen types tlen) ms (Params a) (Handler a)
                (id a) (suffix a) (inited a)).

(** [init] up to its second look at the map: either it returns at once, or
    the descriptor at [p] has to be stored. *)
Inductive InitOutcome :=
| Return (h : option nat)
| Store (p : nat).

Definition setInited (a : ApiHandler) : ApiHandler :=
  mkApiHandler (Desc a) (Types a) (methods a) (Params a) (Handler a) (id a) (suffix a) true.

Definition init_lookup (p : nat) (σ : ApiStore) : InitOutcome * ApiStore :=
  let a := deref σ p in
  if inited a then (Return (getApiHandler σ (id a)), σ)
  else
    let '(strs, a) := initTypes (strArrays σ) a in
    let '(pars, a) := initParamsAndSuffix (paramArrays σ) a in
    let a := initId strs a in
    let a := setInited a in
    let σ := mkApiStore strs pars (<[p := a]> (objects σ))
                        (apiHandlerMap σ) (apiHandlers σ) in
    match getApiHandler σ (id a) with
    | Some h => (Return (Some h), σ)
    | None => (Store p, σ)
    end.

(** [init] *)
Definition init (p : nat) (σ : ApiStore) : option nat * ApiStore :=
  match init_lookup p σ with
  | (Return h, σ) => (h, σ)
  | (Store p, σ) => (Some p, setApiHandler p σ)
  end.

(** The receiver of [Reg] is a value: the call works on a copy of the
    declaration, at an address of its own, whose slices still point into the
    arrays of the caller. *)
Definition newObject (a : ApiHandler) (σ : ApiStore) : nat * ApiStore :=
  (length (objects σ),
   mkApiStore (strArrays σ) (paramArrays σ) (objects σ ++ [a])
              (apiHandlerMap σ) (apiHandlers σ)).

Definition Reg (a : ApiHandler) (σ : ApiStore) : option nat * ApiStore :=
  let '(p, σ) := newObject a σ in init p σ.

(** [NilApiHandler] *)
Definition NilApiHandler (desc : string) (σ : ApiStore) : option nat * ApiStore :=
  let a := mkApiHandler desc nilSlice [] nilSlice (Func "") "" "" false in
  let a := setInited (initId (strArrays σ) a) in
  let '(p, σ) := newObject a σ in
  match getApiHandler σ (id a) with
  | Some _ => (apiHandlerMap σ !! id a, σ)
  | None =>
      (Some p, mkApiStore (strArrays σ) (paramArrays σ) (objects σ)
                          (<[id a := p]> (apiHandlerMap σ)) (apiHandlers σ))
  end.

(** *** Callers running at the same time

    A caller of [Reg] takes [apiHandlerLock] twice: once, to read, in
    [getApiHandler], and once, to write, in [setApiHandler]; what it does
    before the first is on its own copy.  So a call is two steps that other
    callers cannot split, [init_lookup] and [setApiHandler], and a run of
    several callers is an order of these steps. *)
Inductive Caller :=
| Calling (a : ApiHandler)
| Storing (p : nat)
| Returned (h : option nat).

Definition caller_step (c : Caller) (σ : ApiStore) : Caller * ApiStore :=
  match c with
  | Calling a =>
      let '(p, σ) := newObject a σ in
      match init_lookup p σ with
      | (Return h, σ) => (Returned h, σ)
      | (Store p, σ) => (Storing p, σ)
      end
  | Storing p => (Returned (Some p), setApiHandler p σ)
  | Returned h => (Returned h, σ)
  end.

(** The caller with index [k] takes its next step. *)
Definition schedule_step (st : list Caller * ApiStore) (k : nat) : list Caller * ApiStore :=
  let '(cs, σ) := st in
  match cs !! k with
  | Some c => let '(c', σ') := caller_step c σ in (<[k := c']> cs, σ')
  | None => (cs, σ)
  end.

Definition run_schedule (sched : list nat) (st : list Caller * ApiStore)
  : list Caller * ApiStore :=
  fold_left schedule_step sched st.

End ApiHandler.

(** ** The prefix-bound descriptors ([virthandler.go]) *)

Record VirtHandler := mkVirtHandler {
  v_id : string;
  v_methods : Slice;
  v_prefix : string;
  v_prefixPath : string;
  v_prefixParam : string;
  v_description : string;
  v_produces : Slice;
  v_params : Slice
}.

(** The arrays behind the slices, the [VirtHandler] objects behind the
    pointers, and the package variables [virtHandlerMap] and [handlerMap]. *)
Record VirtStore := mkVirtStore {
  v_strArrays : list (list string);
  v_paramArrays : list (list Param);
  v_objects : list VirtHandler;
  virtHandlerMap : gmap string nat;
  handlerMap : gmap string Dispatchable
}.



Definition hasVirtHandler (σ : VirtStore) (i : string) : bool :=
  bool_decide (is_Some (virtHandlerMap σ !! i)).

Definition setVirtHandler (vh : nat) (v : VirtHandler) (σ : VirtStore) : VirtStore :=
  mkVirtStore (v_strArrays σ) (v_paramArrays σ) (v_objects σ)
              (<[v_id v := vh]> (virtHandlerMap σ)) (handlerMap σ).

Definition getHandlerMap (σ : VirtStore) (i : string) : option Dispatchable :=
  handlerMap σ !! i.

Definition setHandlerMap (i : string) (handler : Dispatchable) (σ : VirtStore) : VirtStore :=
  mkVirtStore (v_strArrays σ) (v_paramArrays σ) (v_objects σ)
              (virtHandlerMap σ) (<[i := handler]> (handlerMap σ)).

(** [creatPrefix] *)
Definition creatPrefix (prefix : string) : string * string * string :=
  let cleanPrefix := path_Clean (path_Join ["/"; prefix]) in
  let cleanPrefix := hd "" (strings_Split cleanPrefix "?") in
  let s := strings_Split cleanPrefix "/:" in
  let prefixPath := hd "" s in
  let prefixParam :=
    if decide (1 < length s) then "/:" +:+ strings_Join (tail s) "/:" else "" in
  (cleanPrefix, prefixPath, prefixParam).

(** [handleWareUri]; [methods] is what the slice shows. *)
Definition handleWareUri (hw : Dispatchable) (methods : list string) (prefix : string)
  : string :=
  let add := "[" +:+ prefix +:+ "]" in
  let add := fold_left bracketed methods add in
  match hw with
  | Func name => name +:+ add
  | NonFunc typeString => typeString +:+ add
  end.

(** [NewVirtHandler] *)
Definition NewVirtHandler (handlerfunc : Dispatchable) (prefix : string)
    (methods : Slice) (description : string) (produces params : Slice)
    (σ : VirtStore) : option nat * VirtStore :=
  let '(prefix, prefixPath, prefixParam) := creatPrefix prefix in
  let i := handleWareUri handlerfunc (readSlice (v_strArrays σ) methods) prefix in
  let v := mkVirtHandler i methods prefix prefixPath prefixParam
                         description produces params in
  let vh := length (v_objects σ) in
  let σ := mkVirtStore (v_strArrays σ) (v_paramArrays σ) (v_objects σ ++ [v])
                       (virtHandlerMap σ) (handlerMap σ) in
  if hasVirtHandler σ i then (virtHandlerMap σ !! i, σ)
  else
    let σ := setVirtHandler vh v σ in
    let σ := setHandlerMap i handlerfunc σ in
    (Some vh, σ).

(** [copy(dst, src)] *)
Definition copySlice {T} (m : list (list T)) (dst src : Slice) : list (list T) :=
  writeSlice m dst (take (len dst) (readSlice m src)).

(** [Methods]: [make], then [copy]. *)
Definition VirtHandler_Methods (v : VirtHandler) (strs : list (list string))
  : list (list string) * Slice :=
  let '(strs, ms) := allocArray strs (replicate (len (v_methods v)) "") in
  (copySlice strs ms (v_methods v), ms).

Definition VirtHandler_Id (v : VirtHandler) : string := v_id v.
Definition VirtHandler_Prefix (v : VirtHandler) : string := v_prefix v.
Definition VirtHandler_PrefixPath (v : VirtHandler) : string := v_prefixPath v.
Definition VirtHandler_PrefixParam (v : VirtHandler) : string := v_prefixParam v.
Definition VirtHandler_Description (v : VirtHandler) : string := v_description v.

(** [Params]: [make], then one assignment [p[key] = val] for every index of
    [v.params]. *)
Definition Params_body (src dst : Slice) (pars : list (list Param)) (key : nat)
  : list (list Param) :=
  match getIndex pars src key with
  | Some val => default pars (setIndex pars dst key val)
  | None => pars
  end.

Definition VirtHandler_Params (v : VirtHandler) (pars : list (list Param))
  : list (list Param) * Slice :=
  let '(pars, p) := allocArray pars (replicate (len (v_params v)) zeroParam) in
  (fold_left (Params_body (v_params v) p) (seq 0 (len (v_params v))) pars, p).

(** [Produces] *)
Definition VirtHandler_Produces (v : VirtHandler) : Slice := v_produces v.

(** ** The dispatch adapter ([engine/fasthttp/server.go]) *)

Module Fasthttp.

(** [engine.Config], as far as [Start] reads it. *)
Record Config (Listener : Type) := mkConfig {
  Address : string;
  cfgListener : option Listener;
  TLSCertfile : string;
  TLSKeyfile : string
}.
Arguments mkConfig {_}.
Arguments Address {_}.
Arguments cfgListener {_}.
Arguments TLSCertfile {_}.
Arguments TLSKeyfile {_}.

(** The call into the transport engine that [Start] ends with. *)
Inductive Serving (Listener : Type) :=
| ListenAndServeTLS (addr certFile keyFile : string)
| ListenAndServe (addr : string)
| ServeTLS (ln : Listener) (certFile keyFile : string)
| Serve (ln : Listener).
Arguments ListenAndServeTLS {_}.
Arguments ListenAndServe {_}.
Arguments ServeTLS {_}.
Arguments Serve {_}.

Definition startDefaultListener {L} (c : Config L) : Serving L :=
  if decide (TLSCertfile c ≠ "" ∧ TLSKeyfile c ≠ "")
  then ListenAndServeTLS (Address c) (TLSCertfile c) (TLSKeyfile c)
  else ListenAndServe (Address c).

Definition startCustomListener {L} (c : Config L) (ln : L) : Serving L :=
  if decide (TLSCertfile c ≠ "" ∧ TLSKeyfile c ≠ "")
  then ServeTLS ln (TLSCertfile c) (TLSKeyfile c)
  else Serve ln.

Definition Start {L} (c : Config L) : Serving L :=
  match cfgListener c with
  | None => startDefaultListener c
  | Some ln => startCustomListener c ln
  end.

(** What a [Serving] call does. *)
Definition usesTLS {L} (s : Serving L) : bool :=
  match s with
  | ListenAndServeTLS _ _ _ | ServeTLS _ _ _ => true
  | ListenAndServe _ | Serve _ => false
  end.

Definition servesOn {L} (s : Serving L) : string + L :=
  match s with
  | ListenAndServeTLS addr _ _ | ListenAndServe addr => inl addr
  | ServeTLS ln _ _ | Serve ln => inr ln
  end.

(** A [sync.Pool] of wrappers, named by their addresses: [Get] takes a
    wrapper out of the pool, or makes one with [New] when the pool is empty;
    [Put] gives one back. *)
Record Pools := mkPools {
  request : list nat;
  response : list nat;
  requestHeader : list nat;
  responseHeader : list nat;
  url : list nat;
  fresh : nat
}.

Definition Get (pool : list nat) (fresh : nat) : nat * list nat * nat :=
  match pool with
  | x :: pool' => (x, pool', fresh)
  | [] => (fresh, [], S fresh)
  end.

Definition Put (pool : list nat) (x : nat) : list nat := x :: pool.

Section ServeHTTP.

(** The state of the wrappers and of the native context; the [reset] methods
    and the handler are declared outside the files listed.  A handler that
    panics does not return ([None]); what it reports to the application is
    part of the state it leaves. *)
Variable World : Type.
Variable rqHdr_reset : nat → World → World.
Variable rqURL_reset : nat → World → World.
Variable rq_reset : nat → nat → nat → World → World.
Variable rsHdr_reset : nat → World → World.
Variable rs_reset : nat → nat → World → World.
Variable handler_ServeHTTP : nat → nat → World → option World.

(** The five wrappers of one dispatch. *)
Record Acquired := mkAcquired {
  rq : nat; rqHdr : nat; rqURL : nat; rs : nat; rsHdr : nat
}.

(** The first half of [ServeHTTP]: take the wrappers and reset them. *)
Definition acquire (ps : Pools) (w : World) : Acquired * Pools * World :=
  let '(rq, request, fresh) := Get (request ps) (fresh ps) in
  let '(rqHdr, requestHeader, fresh) := Get (requestHeader ps) fresh in
  let '(rqURL, url, fresh) := Get (url ps) fresh in
  let w := rqHdr_reset rqHdr w in
  let w := rqURL_reset rqURL w in
  let w := rq_reset rq rqHdr rqURL w in
  let '(rs, response, fresh) := Get (response ps) fresh in
  let '(rsHdr, responseHeader, fresh) := Get (responseHeader ps) fresh in
  let w := rsHdr_reset rsHdr w in
  let w := rs_reset rs rsHdr w in
  (mkAcquired rq rqHdr rqURL rs rsHdr,
   mkPools request response requestHeader responseHeader url fresh, w).

(** The second half: the five [Put]s. *)
Definition release (a : Acquired) (ps : Pools) : Pools :=
  mkPools (Put (request ps) (rq a)) (Put (response ps) (rs a))
          (Put (requestHeader ps) (rqHdr a)) (Put (responseHeader ps) (rsHdr a))
          (Put (url ps) (rqURL a)) (fresh ps).

(** [ServeHTTP]: the [Put]s are plain statements after the call of the
    handler, so they run when, and only when, that call returns. *)
Definition ServeHTTP (ps : Pools) (w : World) : option (Pools * World) :=
  let '(a, ps, w) := acquire ps w in
  match handler_ServeHTTP (rq a) (rs a) w with
  | Some w => Some (release a ps, w)
  | None => None
  end.

End ServeHTTP.

End Fasthttp.

(** ** The identity formulas, as the specification writes them *)

(** The symbolic identity of a callback: the fully-qualified name of a
    function, the name of the runtime type of any other value. *)
Definition symbolicIdentity (hw : Dispatchable) : string :=
  match hw with
  | Func name => name
  | NonFunc typeString => typeString
  end.

(** [[x1][x2]...] *)
Definition inBrackets (l : list string) : string :=
  strings_Join ((λ x, "[" +:+ x +:+ "]") <$> l) "".

(** [[suffix][description][type1][type2]...] after the symbolic identity. *)
Definition operationIdentity (hw : Dispatchable) (suffix description : string)
    (types : list string) : string :=
  symbolicIdentity hw +:+ inBrackets (suffix :: description :: types).

(** [[prefix][method1][method2]...] after the symbolic identity. *)
Definition prefixIdentity (hw : Dispatchable) (prefix : string) (methods : list string)
  : string :=
  symbolicIdentity hw +:+ inBrackets (prefix :: methods).

(** A run of registrations, one after the other. *)
Definition registerAll (GetMethodFromType : string → string)
    (decls : list ApiHandler) (σ : ApiStore) : ApiStore :=
  fold_left (λ σ a, (Reg GetMethodFromType a σ).2) decls σ.

(** Every pointer in the ordered list is the address of an object. *)
Definition listAllocated (σ : ApiStore) : Prop :=
  Forall (λ p, p < length (objects σ)) (apiHandlers σ).

(** ** Small stores and declarations to run the code on *)

Definition ex_descriptor (i : string) : ApiHandler :=
  mkApiHandler "" nilSlice [] nilSlice (Func "main.h") i "" true.

(** Two listed descriptors, ["a"] and ["c"], and a third one, ["b"], not yet
    listed. *)
Definition ex_listed : ApiStore :=
  mkApiStore [] [] [ex_descriptor "a"; ex_descriptor "c"; ex_descriptor "b"]
             (<["c" := 1]> (<["a" := 0]> ∅)) [0; 1].

(** ** Suffix and methods, as the specification writes them *)

Definition isPathParam (p : Param) : Prop := p_In p = "path".

Global Instance isPathParam_dec p : Decision (isPathParam p) :=
  decide (p_In p = "path").

(** ["/:" + name] for the path parameters, in the order of the list. *)
Definition derivedSuffix (params : list Param) : string :=
  strings_Join ((λ p, "/:" +:+ p_Name p) <$> filter isPathParam params) "".

(** A path parameter is required; any other parameter is as declared. *)
Definition forceRequired (p : Param) : Param :=
  if decide (isPathParam p) then setRequired p true else p.

(** The declaration of the specification: [Params = [{id, path}, {name, query}]]. *)
Definition ex_params : list Param :=
  [mkParam "id" "path" false ExNil ""; mkParam "name" "query" false ExNil ""].

Definition ex_declaration : ApiHandler :=
  mkApiHandler "user" (mkSlice 0 0 3) [] (mkSlice 0 0 2) (Func "main.user") "" "" false.

(** A list without the elements that repeat the one before them; [prev] is
    the element before the list. *)
Fixpoint dropRepeats (prev : option string) (l : list string) : list string :=
  match l with
  | [] => []
  | x :: l' =>
      if decide (prev = Some x) then dropRepeats prev l'
      else x :: dropRepeats (Some x) l'
  end.

(** The declared types sorted, then without repeats. *)
Definition normalizedTypes (declared : list string) : list string :=
  dropRepeats None (sortStrings declared).

(** The declaration of the specification: [Types = ["GET", "get", "POST"]]. *)
Definition ex_types : list string := ["GET"; "get"; "POST"].

(** A declaration without types and parameters, and its identity. *)
Definition ex_ping : ApiHandler :=
  mkApiHandler "ping" nilSlice [] nilSlice (Func "main.ping") "" "" false.

Definition ex_ping_id : string :=
  "main.ping[][ping][CONNECT][DELETE][GET][HEAD][OPTIONS][PATCH][POST][PUT][TRACE]".

(** [sep] occurs in [s]. *)
Definition occursIn (sep s : string) : Prop :=
  ∃ pre post, s = pre +:+ sep +:+ post.

(** [b] is what stands in [s] before the first instance of [sep], the whole
    of [s] when there is none. *)
Definition beforeFirst (sep s b : string) : Prop :=
  (¬ occursIn sep s ∧ b = s)
  ∨ ((∃ rest, s = b +:+ sep +:+ rest)
     ∧ ∀ pre post, s = pre +:+ sep +:+ post → String.length b ≤ String.length pre).

(** An element of a cleaned path: not empty, not a dot segment, without a
    separator in it. *)
Definition cleanElement (e : string) : Prop :=
  e ≠ "" ∧ e ≠ "." ∧ e ≠ ".." ∧ ¬ occursIn "/" e.

(** A path under the root made of such elements, one slash between two. *)
Definition cleanRooted (p : string) : Prop :=
  ∃ elems, p = "/" +:+ strings_Join elems "/" ∧ Forall cleanElement elems.

(** ** Copies, as the claim about the accessors writes them *)

Section Copies.
Context {T : Type}.
Implicit Types (m : list (list T)) (s : Slice).

(** A copy in a new array: it shows what the stored slice shows; no slice
    that was there and shows anything lies in its array, and every slice that
    was there shows what it showed; an assignment through the copy changes
    the copy and nothing that was there. *)
Definition isDefensiveCopy m s m' s' : Prop :=
  readSlice m' s' = readSlice m s
  ∧ base s' = length m
  ∧ (∀ s0, validSlice m s0 →
       (len s0 ≠ 0 → base s0 ≠ base s') ∧ readSlice m' s0 = readSlice m s0)
  ∧ ∀ i x m'', setIndex m' s' i x = Some m'' →
      readSlice m'' s' = <[i := x]> (readSlice m s)
      ∧ ∀ s0, validSlice m s0 → readSlice m'' s0 = readSlice m s0.

End Copies.

(** A prefix-bound descriptor with two methods, one produced type and the
    two parameters above. *)
Definition ex_virt : VirtHandler :=
  mkVirtHandler "main.users[/users][GET][POST]" (mkSlice 0 0 2) "/users" "/users" ""
                "users" (mkSlice 1 0 1) (mkSlice 0 0 2).

Definition ex_virt_strs : list (list string) := [["GET"; "POST"]; ["application/json"]].

(** ** Repeated registration *)

(** The identity [init] gives to a declaration that is not yet initialised:
    [initTypes], [initParamsAndSuffix] and [initId] in this order. *)
Definition computedId (GetMethodFromType : string → string)
    (strs : list (list string)) (pars : list (list Param)) (a : ApiHandler) : string :=
  let t := initTypes GetMethodFromType strs a in
  id (initId t.1 (initParamsAndSuffix pars t.2).2).

(** [n] calls of [Reg] on the same declaration, one after the other: what
    they return, and the store they leave. *)
Fixpoint regRepeat (GetMethodFromType : string → string) (a : ApiHandler) (n : nat)
    (σ : ApiStore) : list (option nat) * ApiStore :=
  match n with
  | O => ([], σ)
  | S n' =>
      let '(h, σ) := Reg GetMethodFromType a σ in
      let '(hs, σ) := regRepeat GetMethodFromType a n' σ in
      (h :: hs, σ)
  end.

(** The types a declaration ends with: the standard set when none is
    declared, the declared ones sorted and without repeats otherwise. *)
Definition finalTypes (declared : list string) : list string :=
  match declared with
  | [] => allMethods
  | _ => normalizedTypes declared
  end.

(** A store that holds the declaration of the specification. *)
Definition ex_store : ApiStore := mkApiStore [ex_types] [ex_params] [] ∅ [].

(** ** Runs of registrations *)

(** A call into the registry: [Reg] on a declaration, or [NilApiHandler]. *)
Inductive Registration :=
| RegCall (a : ApiHandler)
| NilCall (desc : string).

Definition register (GetMethodFromType : string → string) (c : Registration)
    (σ : ApiStore) : option nat * ApiStore :=
  match c with
  | RegCall a => Reg GetMethodFromType a σ
  | NilCall desc => NilApiHandler desc σ
  end.

(** The calls of [cs], one after the other. *)
Definition registrations (GetMethodFromType : string → string)
    (cs : list Registration) (σ : ApiStore) : ApiStore :=
  fold_left (λ σ c, (register GetMethodFromType c σ).2) cs σ.

(** Every key of the map leads to an initialised descriptor that carries the
    key as its identity. *)
Definition mapKeyed (σ : ApiStore) : Prop :=
  ∀ i p, apiHandlerMap σ !! i = Some p →
    p < length (objects σ) ∧ id (deref σ p) = i ∧ inited (deref σ p) = true.

(** Every listed descriptor is the one the map holds under its identity. *)
Definition listInMap (σ : ApiStore) : Prop :=
  ∀ p, p ∈ apiHandlers σ → apiHandlerMap σ !! id (deref σ p) = Some p.

Definition registryConsistent (σ : ApiStore) : Prop :=
  mapKeyed σ ∧ listInMap σ ∧ StronglySorted str_lt (enumerateIds σ).

(** Two descriptors registered one after the other, and a run of three more
    calls, to try the properties of runs on. *)
Definition ex_registered : ApiStore :=
  registrations (λ t, t) [RegCall ex_declaration; NilCall "none"] ex_store.


(** The declaration [ex_declaration] written another way: the types in
    another order and one of them twice, one more parameter outside the
    path. *)
Definition ex_params_more : list Param :=
  [mkParam "id" "path" true ExNil "user id"; mkParam "page" "query" false (ExInt 1) "";
   mkParam "name" "form" false ExNil ""].

Definition ex_declaration_again : ApiHandler :=
  mkApiHandler "user" (mkSlice 1 0 4) [] (mkSlice 1 0 3) (Func "main.user") "" "" false.

Definition ex_store_again : ApiStore :=
  mkApiStore [ex_types; ["get"; "POST"; "GET"; "POST"]] [ex_params; ex_params_more] [] ∅ [].

(** ** Runs of [NewVirtHandler] *)

(** The arguments of one call of [NewVirtHandler]. *)
Record VirtCall := mkVirtCall {
  c_handler : Dispatchable;
  c_prefix : string;
  c_methods : Slice;
  c_description : string;
  c_produces : Slice;
  c_params : Slice
}.

Definition virtRegister (c : VirtCall) (τ : VirtStore) : option nat * VirtStore :=
  NewVirtHandler (c_handler c) (c_prefix c) (c_methods c) (c_description c)
                 (c_produces c) (c_params c) τ.


(** Every key of [virtHandlerMap] leads to a descriptor that carries the key
    as its identity and whose prefix is a rooted path without ["?"], cut at
    its first ["/:"] into path and parameters; and [handlerMap] has the same
    keys. *)
Definition virtConsistent (τ : VirtStore) : Prop :=
  (∀ j p, virtHandlerMap τ !! j = Some p →
     ∃ v, v_objects τ !! p = Some v
          ∧ VirtHandler_Id v = j
          ∧ VirtHandler_Prefix v = VirtHandler_PrefixPath v +:+ VirtHandler_PrefixParam v
          ∧ is_rooted (VirtHandler_Prefix v) = true
          ∧ ¬ occursIn "?" (VirtHandler_Prefix v)
          ∧ beforeFirst "/:" (VirtHandler_Prefix v) (VirtHandler_PrefixPath v))
  ∧ (∀ j, is_Some (getHandlerMap τ j) ↔ is_Some (virtHandlerMap τ !! j)).

(** Two calls with the same callback, prefix and methods, the second with
    the prefix written another way and another description. *)
Definition ex_virt_call : VirtCall :=
  mkVirtCall (Func "main.users") "users/:id" (mkSlice 0 0 2) "one user"
             (mkSlice 1 0 1) nilSlice.

Definition ex_virt_call_again : VirtCall :=
  mkVirtCall (Func "main.users") "//users/./:id/" (mkSlice 0 0 2) "something else"
             nilSlice nilSlice.

Definition ex_virt_store : VirtStore := mkVirtStore ex_virt_strs [] [] ∅ ∅.

(** ** The wrappers in the pools *)

(** What the five pools hold, and the five wrappers of a dispatch. *)
Definition allPooled (ps : Fasthttp.Pools) : list nat :=
  Fasthttp.request ps ++ Fasthttp.response ps ++ Fasthttp.requestHeader ps
  ++ Fasthttp.responseHeader ps ++ Fasthttp.url ps.

Definition wrappers (a : Fasthttp.Acquired) : list nat :=
  [Fasthttp.rq a; Fasthttp.rqHdr a; Fasthttp.rqURL a; Fasthttp.rs a; Fasthttp.rsHdr a].

(** No wrapper is twice in [l], and [New] has made them all. *)
Definition distinctBelow (l : list nat) (fresh : nat) : Prop :=
  NoDup l ∧ Forall (λ x, x < fresh) l.

Definition poolsDistinct (ps : Fasthttp.Pools) : Prop :=
  distinctBelow (allPooled ps) (Fasthttp.fresh ps).

(** ** The cleaned prefix, as the specification writes it *)

(** The raw prefix without everything from its first ["?"] onward. *)
Definition withoutQuery (raw : string) : string := hd "" (strings_Split raw "?").

(** That, anchored under the root, with redundant separators and dot
    segments collapsed. *)
Definition cleanedPrefix (raw : string) : string :=
  path_Clean (path_Join ["/"; withoutQuery raw]).

(** ** The server: constructors, setters and dispatch *)

Module FasthttpServer.

Section Server.

(** Listeners, loggers, the wrappers' [reset] methods and the state they work
    on are declared outside the files listed.  [Logger_Error] is the [Error]
    method of a logger; like a handler, it gives [None] when it panics, which
    is what it does on a nil logger. *)
Variable Listener Logger World : Type.
Variable GlobalLogger : Logger.
Variable Logger_Error : Logger → string → World → option World.
Variable rqHdr_reset : nat → World → World.
Variable rqURL_reset : nat → World → World.
Variable rq_reset : nat → nat → nat → World → World.
Variable rsHdr_reset : nat → World → World.
Variable rs_reset : nat → nat → World → World.

(** An [engine.Handler]: the closure that [WithConfig] installs, or a handler
    of the application. *)
Inductive Handler :=
| handlerNotSet
| HandlerFunc (h : nat → nat → World → option World).

Record Server := mkServer {
  config : Fasthttp.Config Listener;
  handler : Handler;
  logger : Logger;
  pool : Fasthttp.Pools
}.

Definition WithConfig (c : Fasthttp.Config Listener) : Server :=
  mkServer c handlerNotSet GlobalLogger (Fasthttp.mkPools [] [] [] [] [] 0).

Definition New (addr : string) : Server :=
  WithConfig (Fasthttp.mkConfig addr None "" "").

Definition WithTLS (addr certfile keyfile : string) : Server :=
  WithConfig (Fasthttp.mkConfig addr None certfile keyfile).

Definition SetHandler (s : Server) (h : Handler) : Server :=
  mkServer (config s) h (logger s) (pool s).

Definition SetLogger (s : Server) (l : Logger) : Server :=
  mkServer (config s) (handler s) l (pool s).

Definition Start (s : Server) : Fasthttp.Serving Listener :=
  Fasthttp.Start (config s).

(** [s.handler.ServeHTTP(rq, rs)]: the closure of [WithConfig] reads the
    logger of the server when it is called. *)
Definition handler_ServeHTTP (s : Server) (rq rs : nat) (w : World) : option World :=
  match handler s with
  | handlerNotSet =>
      Logger_Error (logger s) "handler not set, use `SetHandler()` to set it." w
  | HandlerFunc h => h rq rs w
  end.

(** [ServeHTTP] on the pools of the server. *)
Definition ServeHTTP (s : Server) (w : World) : option (Server * World) :=
  match Fasthttp.ServeHTTP World rqHdr_reset rqURL_reset rq_reset rsHdr_reset rs_reset
          (handler_ServeHTTP s) (pool s) w with
  | Some (ps, w) => Some (mkServer (config s) (handler s) (logger s) ps, w)
  | None => None
  end.

End Server.

Arguments handlerNotSet {_}.
Arguments HandlerFunc {_}.
Arguments mkServer {_ _ _}.
Arguments config {_ _ _}.
Arguments handler {_ _ _}.
Arguments logger {_ _ _}.
Arguments pool {_ _ _}.

End FasthttpServer.

(** * Part II: properties *)

(** ** The byte-wise order *)

Lemma ltb_leb s1 s2 : String.ltb s1 s2 = true → String.le s1 s2.
Proof.
  unfold String.le, String.leb, String.ltb.
  destruct (String.compare s1 s2); simpl; intros; done.
Qed.

Lemma ltb_false_leb s1 s2 : String.ltb s1 s2 = false → String.le s2 s1.
Proof.
  unfold String.le, String.leb, String.ltb.
  rewrite (String.compare_antisym s1 s2).
  destruct (String.compare s2 s1); simpl; intros; done.
Qed.

Lemma ltb_irrefl s : String.ltb s s = false.
Proof.
  unfold String.ltb. pose proof (String.compare_antisym s s) as H.
  by destruct (String.compare s s).
Qed.

Lemma str_lt_iff s1 s2 : str_lt s1 s2 ↔ String.le s1 s2 ∧ s1 ≠ s2.
Proof.
  unfold str_lt. split.
  - intros H. split; [by apply ltb_leb|]. intros ->. by rewrite ltb_irrefl in H.
  - intros [Hle Hne]. revert Hle. unfold String.le, String.leb, String.ltb.
    destruct (String.compare s1 s2) eqn:E; try done.
    by apply String.compare_eq_iff in E.
Qed.

Lemma not_str_lt_le s1 s2 : ¬ str_lt s1 s2 → String.le s2 s1.
Proof.
  unfold str_lt. intros H. apply ltb_false_leb. by destruct (String.ltb s1 s2).
Qed.

Lemma str_lt_le s1 s2 : str_lt s1 s2 → String.le s1 s2.
Proof. by intros [? _]%str_lt_iff. Qed.

Global Instance str_lt_trans : Transitive str_lt.
Proof.
  intros a b c [Hab Nab]%str_lt_iff [Hbc Nbc]%str_lt_iff. apply str_lt_iff. split.
  - by etrans.
  - intros ->. apply Nab. by apply (anti_symm String.le).
Qed.

Global Instance str_lt_irrefl : Irreflexive str_lt.
Proof. intros s H. unfold str_lt in H. by rewrite ltb_irrefl in H. Qed.

(** ** [sort.Strings] *)

Lemma sortStrings_Sorted l : StronglySorted String.le (sortStrings l).
Proof. apply StronglySorted_merge_sort; apply _. Qed.

Lemma sortStrings_Permutation l : sortStrings l ≡ₚ l.
Proof. apply merge_sort_Permutation. Qed.

Lemma sortStrings_unique l l' :
  StronglySorted String.le l' → l' ≡ₚ l → sortStrings l = l'.
Proof.
  intros Hs Hp. apply (StronglySorted_unique String.le).
  - apply sortStrings_Sorted.
  - done.
  - by rewrite sortStrings_Permutation.
Qed.

Lemma sortStrings_elem x l : x ∈ sortStrings l ↔ x ∈ l.
Proof. by rewrite sortStrings_Permutation. Qed.

Lemma sortStrings_length l : length (sortStrings l) = length l.
Proof. by rewrite sortStrings_Permutation. Qed.

(** ** Startup and dispatch *)

(** C8. [Start] serves on the listener of the configuration when there is
    one and on the configured address otherwise, and in both cases it serves
    TLS exactly when the certificate path and the key path are both
    non-empty, with these two files. *)
Theorem Start_selection {L} (c : Fasthttp.Config L) :
  Fasthttp.servesOn (Fasthttp.Start c) =
    match Fasthttp.cfgListener c with
    | Some ln => inr ln
    | None => inl (Fasthttp.Address c)
    end
  ∧ Fasthttp.usesTLS (Fasthttp.Start c) =
      bool_decide (Fasthttp.TLSCertfile c ≠ "" ∧ Fasthttp.TLSKeyfile c ≠ "")
  ∧ Fasthttp.Start c =
      match Fasthttp.cfgListener c,
            bool_decide (Fasthttp.TLSCertfile c ≠ "" ∧ Fasthttp.TLSKeyfile c ≠ "") with
      | None, true =>
          Fasthttp.ListenAndServeTLS (Fasthttp.Address c)
            (Fasthttp.TLSCertfile c) (Fasthttp.TLSKeyfile c)
      | None, false => Fasthttp.ListenAndServe (Fasthttp.Address c)
      | Some ln, true =>
          Fasthttp.ServeTLS ln (Fasthttp.TLSCertfile c) (Fasthttp.TLSKeyfile c)
      | Some ln, false => Fasthttp.Serve ln
      end.
Proof.
  unfold Fasthttp.Start, Fasthttp.startDefaultListener, Fasthttp.startCustomListener.
  destruct (Fasthttp.cfgListener c) as [ln|];
    case_bool_decide; case_decide; try done.
Qed.

Section Dispatch.
Context {World : Type}.
Variable rqHdr_reset rqURL_reset : nat → World → World.
Variable rq_reset : nat → nat → nat → World → World.
Variable rsHdr_reset : nat → World → World.
Variable rs_reset : nat → nat → World → World.
Variable handler : nat → nat → World → option World.

Local Abbreviation acquire :=
  (Fasthttp.acquire World rqHdr_reset rqURL_reset rq_reset rsHdr_reset rs_reset).
Local Abbreviation ServeHTTP :=
  (Fasthttp.ServeHTTP World rqHdr_reset rqURL_reset rq_reset rsHdr_reset rs_reset handler).

Lemma Get_Put pool fresh x pool' fresh' :
  Fasthttp.Get pool fresh = (x, pool', fresh') →
  (pool = [] ∧ x = fresh ∧ Fasthttp.Put pool' x = [fresh] ∧ fresh' = S fresh)
  ∨ (pool ≠ [] ∧ Fasthttp.Put pool' x = pool ∧ fresh' = fresh).
Proof.
  unfold Fasthttp.Get, Fasthttp.Put. destruct pool; intros [= <- <- <-]; eauto.
Qed.

(** C7. Once the handler has returned, whatever it left in the state of the
    wrappers and of the native context, [ServeHTTP] has put each of the five
    wrappers it took back into the pool it took it from: every pool holds
    its wrapper again, on top of what the dispatch left in it. *)
Theorem ServeHTTP_releases ps w a ps1 w1 w2 :
  acquire ps w = (a, ps1, w1) →
  handler (Fasthttp.rq a) (Fasthttp.rs a) w1 = Some w2 →
  ∃ ps2, ServeHTTP ps w = Some (ps2, w2)
    ∧ Fasthttp.request ps2 = Fasthttp.rq a :: Fasthttp.request ps1
    ∧ Fasthttp.requestHeader ps2 = Fasthttp.rqHdr a :: Fasthttp.requestHeader ps1
    ∧ Fasthttp.url ps2 = Fasthttp.rqURL a :: Fasthttp.url ps1
    ∧ Fasthttp.response ps2 = Fasthttp.rs a :: Fasthttp.response ps1
    ∧ Fasthttp.responseHeader ps2 = Fasthttp.rsHdr a :: Fasthttp.responseHeader ps1
    ∧ length (Fasthttp.request ps2) = length (Fasthttp.request ps) `max` 1
    ∧ length (Fasthttp.requestHeader ps2) = length (Fasthttp.requestHeader ps) `max` 1
    ∧ length (Fasthttp.url ps2) = length (Fasthttp.url ps) `max` 1
    ∧ length (Fasthttp.response ps2) = length (Fasthttp.response ps) `max` 1
    ∧ length (Fasthttp.responseHeader ps2) = length (Fasthttp.responseHeader ps) `max` 1.
Proof.
  intros Hacq Hh. unfold Fasthttp.ServeHTTP. rewrite Hacq, Hh.
  eexists. split; [done|]. revert Hacq. unfold Fasthttp.acquire.
  destruct ps as [p1 p2 p3 p4 p5 f]; simpl.
  destruct (Fasthttp.Get p1 f) as [[x1 q1] f1] eqn:E1.
  destruct (Fasthttp.Get p3 f1) as [[x3 q3] f3] eqn:E3.
  destruct (Fasthttp.Get p5 f3) as [[x5 q5] f5] eqn:E5.
  destruct (Fasthttp.Get p2 f5) as [[x2 q2] f2] eqn:E2.
  destruct (Fasthttp.Get p4 f2) as [[x4 q4] f4] eqn:E4.
  intros [= <- <- <-]; simpl. unfold Fasthttp.Put.
  repeat split; try done.
  all: match goal with
       | H : Fasthttp.Get ?p _ = (_, ?q, _) |- context [length ?p] =>
           destruct p; simpl in H; injection H as <- <- <-; simpl; lia
       end.
Qed.

End Dispatch.

(** A dispatch on empty pools with a handler that returns at once. *)
Lemma ServeHTTP_releases_witness :
  ∃ ps2, Fasthttp.ServeHTTP unit (λ _ w, w) (λ _ w, w) (λ _ _ _ w, w) (λ _ w, w)
           (λ _ _ w, w) (λ _ _ w, Some w) (Fasthttp.mkPools [] [] [] [] [] 0) tt
         = Some (ps2, tt)
    ∧ Fasthttp.request ps2 = [0]
    ∧ Fasthttp.requestHeader ps2 = [1]
    ∧ Fasthttp.url ps2 = [2]
    ∧ Fasthttp.response ps2 = [3]
    ∧ Fasthttp.responseHeader ps2 = [4].
Proof.
  destruct (ServeHTTP_releases (World := unit) (λ _ w, w) (λ _ w, w) (λ _ _ _ w, w)
              (λ _ w, w) (λ _ _ w, w) (λ _ _ w, Some w)
              (Fasthttp.mkPools [] [] [] [] [] 0) tt
              (Fasthttp.mkAcquired 0 1 2 3 4) (Fasthttp.mkPools [] [] [] [] [] 5) tt tt
              eq_refl eq_refl)
    as (ps2 & H & H1 & H2 & H3 & H4 & H5 & _).
  exists ps2. by rewrite H, H1, H2, H3, H4, H5.
Defined.

(** ** Strings *)

Lemma str_app_assoc (s1 s2 s3 : string) : (s1 +:+ s2) +:+ s3 = s1 +:+ (s2 +:+ s3).
Proof.
  induction s1 as [|c s1 IH]; [done|].
  change (String c ((s1 +:+ s2) +:+ s3) = String c (s1 +:+ (s2 +:+ s3))).
  by rewrite IH.
Qed.

Lemma str_app_nil_r (s : string) : s +:+ "" = s.
Proof.
  induction s as [|c s IH]; [done|].
  change (String c (s +:+ "") = String c s). by rewrite IH.
Qed.

Lemma str_app_length (s1 s2 : string) :
  String.length (s1 +:+ s2) = String.length s1 + String.length s2.
Proof.
  induction s1 as [|c s1 IH]; [done|].
  change (S (String.length (s1 +:+ s2)) = S (String.length s1) + String.length s2).
  by rewrite IH.
Qed.

Lemma str_app_cons c (s1 s2 : string) : String c s1 +:+ s2 = String c (s1 +:+ s2).
Proof. done. Qed.

Lemma Join_empty_cons x l : strings_Join (x :: l) "" = x +:+ strings_Join l "".
Proof.
  unfold strings_Join. destruct l as [|y l]; simpl.
  - by rewrite str_app_nil_r.
  - done.
Qed.

Lemma inBrackets_cons x l : inBrackets (x :: l) = "[" +:+ x +:+ "]" +:+ inBrackets l.
Proof.
  unfold inBrackets. rewrite fmap_cons, Join_empty_cons. cbv beta.
  by rewrite !str_app_assoc.
Qed.

Lemma fold_bracketed l add : fold_left bracketed l add = add +:+ inBrackets l.
Proof.
  revert add. induction l as [|x l IH]; intros add; simpl.
  - unfold inBrackets, strings_Join. simpl. by rewrite str_app_nil_r.
  - rewrite IH, inBrackets_cons. unfold bracketed. by rewrite !str_app_assoc.
Qed.

(** ** The two identities *)

Lemma initId_id strs a :
  id (initId strs a) =
    operationIdentity (Handler a) (suffix a) (Desc a) (readSlice strs (Types a)).
Proof.
  unfold initId, operationIdentity. simpl. rewrite fold_bracketed.
  rewrite !inBrackets_cons.
  destruct (Handler a); simpl; by rewrite !str_app_assoc.
Qed.

Lemma handleWareUri_id hw ms prefix :
  handleWareUri hw ms prefix = prefixIdentity hw prefix ms.
Proof.
  unfold handleWareUri, prefixIdentity. rewrite fold_bracketed, inBrackets_cons.
  destruct hw; simpl; by rewrite !str_app_assoc.
Qed.

(** C2. Both identities are functions of what they are built from.  The
    identity [initId] stores is the symbolic identity of the callback
    followed by the bracketed suffix, description and types of the
    descriptor; the identity [handleWareUri] returns is the symbolic identity
    followed by the bracketed prefix and methods; and the descriptor
    [NewVirtHandler] makes is keyed by the latter, built from the cleaned
    prefix, whatever its description, produced types and parameters are. *)
Theorem identity_formulas :
  (∀ strs a,
     id (initId strs a) =
       operationIdentity (Handler a) (suffix a) (Desc a) (readSlice strs (Types a)))
  ∧ (∀ hw ms prefix, handleWareUri hw ms prefix = prefixIdentity hw prefix ms)
  ∧ (∀ hw prefix ms description produces params σ,
       let i := prefixIdentity hw (creatPrefix prefix).1.1
                  (readSlice (v_strArrays σ) ms) in
       let r := NewVirtHandler hw prefix ms description produces params σ in
       is_Some (virtHandlerMap r.2 !! i)
       ∧ (∀ j, j ≠ i → virtHandlerMap r.2 !! j = virtHandlerMap σ !! j)
       ∧ r.1 = virtHandlerMap r.2 !! i
       ∧ ∀ description' produces' params',
           let r' := NewVirtHandler hw prefix ms description' produces' params' σ in
           r'.1 = r.1 ∧ virtHandlerMap r'.2 = virtHandlerMap r.2).
Proof.
  split; [apply initId_id|]. split; [apply handleWareUri_id|].
  intros hw prefix ms description produces params σ. cbv zeta.
  unfold NewVirtHandler. destruct (creatPrefix prefix) as [[cp pp] ppm].
  rewrite <- handleWareUri_id. cbn [fst snd].
  set (i := handleWareUri hw (readSlice (v_strArrays σ) ms) cp).
  unfold hasVirtHandler. cbn [virtHandlerMap].
  case_bool_decide as Hin; cbn [fst snd virtHandlerMap setHandlerMap setVirtHandler v_id].
  - repeat split; try done.
  - repeat split; try done.
    + rewrite lookup_insert_eq. by eexists.
    + intros j Hj. by rewrite lookup_insert_ne.
    + by rewrite lookup_insert_eq.
Qed.

(** ** Ordered insertion *)

Lemma ordered_insertion (f : nat → string) (v : nat) (l : list nat) :
  StronglySorted String.le (f <$> l) →
  let l' := match list_find (λ y, str_lt (f v) (f y)) l with
            | Some (i, _) => take i l ++ [v] ++ drop i l
            | None => l ++ [v]
            end in
  StronglySorted String.le (f <$> l')
  ∧ ∃ before after,
      l = before ++ after ∧ l' = before ++ v :: after
      ∧ Forall (λ y, ¬ str_lt (f v) (f y)) before
      ∧ match after with
        | [] => True
        | y :: _ => str_lt (f v) (f y)
        end.
Proof.
  intros Hs. cbv zeta.
  destruct (list_find _ l) as [[i x]|] eqn:Hfind.
  - apply list_find_Some in Hfind as (Hi & Hlt & Hbefore).
    assert (Hsplit : l = take i l ++ x :: drop (S i) l).
    { by rewrite <- (drop_S _ _ _ Hi), take_drop. }
    assert (Hb : Forall (λ y, ¬ str_lt (f v) (f y)) (take i l)).
    { apply Forall_forall. intros y [j Hj]%list_elem_of_lookup.
      apply lookup_take_Some in Hj as [Hj ?]. by eapply Hbefore. }
    rewrite (drop_S _ _ _ Hi). split.
    + rewrite Hsplit, fmap_app in Hs.
      apply StronglySorted_app in Hs as (Hcross & Hs1 & Hs2).
      rewrite fmap_app. apply StronglySorted_app_2; [|done|].
      * intros x1 x2 [y1 [-> Hy1]]%list_elem_of_fmap Hx2.
        assert (String.le (f y1) (f v)).
        { apply not_str_lt_le. by eapply (proj1 (Forall_forall _ _) Hb). }
        change ([v] ++ x :: drop (S i) l) with (v :: x :: drop (S i) l) in Hx2.
        rewrite fmap_cons in Hx2. apply elem_of_cons in Hx2 as [->|Hx2]; [done|].
        etrans; [done|]. etrans; [by apply str_lt_le|].
        rewrite fmap_cons in Hx2, Hs2.
        apply elem_of_cons in Hx2 as [->|Hx2]; [done|].
        apply StronglySorted_cons in Hs2 as [Hall _].
        by eapply (proj1 (Forall_forall _ _) Hall).
      * change ([v] ++ x :: drop (S i) l) with (v :: x :: drop (S i) l).
        rewrite fmap_cons. apply StronglySorted_cons. split; [|done].
        rewrite fmap_cons. apply Forall_cons. split; [by apply str_lt_le|].
        rewrite fmap_cons in Hs2. apply StronglySorted_cons in Hs2 as [Hall _].
        eapply Forall_impl; [done|]. intros z Hz. simpl in Hz.
        etrans; [by apply str_lt_le|done].
    + exists (take i l), (x :: drop (S i) l). done.
  - apply list_find_None in Hfind. split.
    + rewrite fmap_app. apply StronglySorted_app_2; [|done|repeat constructor].
      intros x1 x2 [y1 [-> Hy1]]%list_elem_of_fmap Hx2.
      apply list_elem_of_singleton in Hx2 as ->.
      apply not_str_lt_le. by eapply (proj1 (Forall_forall _ _) Hfind).
    + exists l, []. by rewrite app_nil_r.
Qed.

(** ** What a registration leaves alone *)

Section Registry.
Variable G : string → string.

Lemma init_lookup_frame p σ :
  apiHandlers (init_lookup G p σ).2 = apiHandlers σ
  ∧ apiHandlerMap (init_lookup G p σ).2 = apiHandlerMap σ
  ∧ length (objects (init_lookup G p σ).2) = length (objects σ)
  ∧ (∀ q, q ≠ p → objects (init_lookup G p σ).2 !! q = objects σ !! q)
  ∧ (∀ q, (init_lookup G p σ).1 = Store q → q = p).
Proof.
  unfold init_lookup. destruct (inited (deref σ p)); [done|].
  destruct (initTypes G _ _) as [strs a1].
  destruct (initParamsAndSuffix _ _) as [pars a2].
  destruct (getApiHandler _ _); simpl.
  - split_and!; try done.
    + by rewrite length_insert.
    + intros q Hq. by rewrite list_lookup_insert_ne.
  - split_and!; try done.
    + by rewrite length_insert.
    + intros q Hq. by rewrite list_lookup_insert_ne.
    + by intros q [= <-].
Qed.

Lemma deref_ext σ σ' q : objects σ' !! q = objects σ !! q → deref σ' q = deref σ q.
Proof. unfold deref. by intros ->. Qed.

Lemma enumerateIds_ext σ σ' :
  apiHandlers σ' = apiHandlers σ →
  (∀ q, q ∈ apiHandlers σ → objects σ' !! q = objects σ !! q) →
  enumerateIds σ' = enumerateIds σ.
Proof.
  intros Hl Ho. unfold enumerateIds. rewrite Hl.
  apply list_fmap_ext. intros i q Hq%list_elem_of_lookup_2.
  by rewrite (deref_ext σ σ' q (Ho q Hq)).
Qed.

Lemma setApiHandler_enumerate vh σ :
  StronglySorted String.le (enumerateIds σ) →
  StronglySorted String.le (enumerateIds (setApiHandler vh σ))
  ∧ ∃ before after,
      apiHandlers σ = before ++ after
      ∧ apiHandlers (setApiHandler vh σ) = before ++ vh :: after
      ∧ Forall (λ p, ¬ str_lt (ApiHandler_Id (deref σ vh)) (ApiHandler_Id (deref σ p)))
               before
      ∧ match after with
        | [] => True
        | p :: _ => str_lt (ApiHandler_Id (deref σ vh)) (ApiHandler_Id (deref σ p))
        end.
Proof.
  intros Hs.
  apply (ordered_insertion (λ p, ApiHandler_Id (deref σ p)) vh (apiHandlers σ)) in Hs.
  exact Hs.
Qed.

Lemma Reg_keeps_order a σ :
  listAllocated σ →
  StronglySorted String.le (enumerateIds σ) →
  listAllocated (Reg G a σ).2
  ∧ StronglySorted String.le (enumerateIds (Reg G a σ).2).
Proof.
  intros Hwf Hs. unfold Reg, newObject, init.
  set (σ0 := mkApiStore _ _ (objects σ ++ [a]) _ _).
  pose proof (init_lookup_frame (length (objects σ)) σ0) as (Hl & _ & Hlen & Ho & Hst).
  assert (Hwf1 : listAllocated (init_lookup G (length (objects σ)) σ0).2).
  { unfold listAllocated. rewrite Hl, Hlen. simpl. rewrite length_app. simpl.
    eapply Forall_impl; [exact Hwf|]. simpl. lia. }
  assert (Hs1 : StronglySorted String.le
                  (enumerateIds (init_lookup G (length (objects σ)) σ0).2)).
  { rewrite (enumerateIds_ext σ); [done|by rewrite Hl|].
    intros q Hq.
    assert (q < length (objects σ)) by (by eapply (proj1 (Forall_forall _ _) Hwf)).
    rewrite Ho by lia. simpl. by rewrite lookup_app_l. }
  destruct (init_lookup G (length (objects σ)) σ0) as [[h|q] σ1]; simpl in *; [done|].
  rewrite (Hst q eq_refl). split.
  - destruct (setApiHandler_enumerate (length (objects σ)) σ1 Hs1)
      as (_ & before & after & Hb & Ha & _).
    unfold listAllocated in *. rewrite Ha. simpl. rewrite Hb in Hwf1.
    apply Forall_app in Hwf1 as [? ?]. apply Forall_app. split; [done|].
    apply Forall_cons. split; [|done]. rewrite Hlen, length_app. simpl. lia.
  - by apply setApiHandler_enumerate.
Qed.

Lemma registerAll_keeps_order decls σ :
  listAllocated σ →
  StronglySorted String.le (enumerateIds σ) →
  listAllocated (registerAll G decls σ)
  ∧ StronglySorted String.le (enumerateIds (registerAll G decls σ)).
Proof.
  revert σ. induction decls as [|a decls IH]; intros σ Hwf Hs; [done|].
  simpl. apply IH; by apply Reg_keeps_order.
Qed.

End Registry.

(** C3. When the descriptors of [DefLessgo.apiHandlers] are in ascending
    order of identity, they still are after [setApiHandler]: the new
    descriptor stands before the first one with a greater identity, after all
    the ones without, at the end when there is none.  So the order also holds
    after any run of registrations that starts from a state where every
    listed pointer is allocated, the empty registry among them. *)
Theorem setApiHandler_keeps_order (σ : ApiStore) (vh : nat) :
  StronglySorted String.le (enumerateIds σ) →
  (StronglySorted String.le (enumerateIds (setApiHandler vh σ))
   ∧ ∃ before after,
       apiHandlers σ = before ++ after
       ∧ apiHandlers (setApiHandler vh σ) = before ++ vh :: after
       ∧ Forall (λ p, ¬ str_lt (ApiHandler_Id (deref σ vh)) (ApiHandler_Id (deref σ p)))
                before
       ∧ match after with
         | [] => True
         | p :: _ => str_lt (ApiHandler_Id (deref σ vh)) (ApiHandler_Id (deref σ p))
         end)
  ∧ (∀ G decls, listAllocated σ →
       StronglySorted String.le (enumerateIds (registerAll G decls σ)))
  ∧ (∀ G decls,
       StronglySorted String.le (enumerateIds (registerAll G decls emptyApiStore))).
Proof.
  intros Hs. split; [by apply setApiHandler_enumerate|]. split.
  - intros G decls Hwf. by apply registerAll_keeps_order.
  - intros G decls. apply registerAll_keeps_order; by constructor.
Qed.

(** The descriptor ["b"] goes between ["a"] and ["c"]. *)
Lemma setApiHandler_keeps_order_witness :
  StronglySorted String.le (enumerateIds ex_listed)
  ∧ StronglySorted String.le (enumerateIds (setApiHandler 2 ex_listed))
  ∧ enumerateIds (setApiHandler 2 ex_listed) = ["a"; "b"; "c"].
Proof.
  assert (H : StronglySorted String.le (enumerateIds ex_listed)).
  { vm_compute. repeat constructor. }
  split; [exact H|]. split; [|reflexivity].
  exact (proj1 (proj1 (setApiHandler_keeps_order ex_listed 2 H))).
Defined.

(** ** Slices *)

Section SliceFacts.
Context {T : Type}.
Implicit Types (m : list (list T)) (s : Slice) (w arr : list T).

Lemma readSlice_lookup m s arr :
  m !! base s = Some arr → readSlice m s = take (len s) (drop (off s) arr).
Proof. intros H. unfold readSlice. by rewrite (list_lookup_total_correct _ _ _ H). Qed.

Lemma nilSlice_valid m : validSlice m nilSlice.
Proof. by left. Qed.

Lemma readSlice_empty m s : len s = 0 → readSlice m s = [].
Proof. intros H. unfold readSlice. by rewrite H. Qed.

Lemma validSlice_nonempty m s : validSlice m s → len s ≠ 0 → inArray m s.
Proof. by intros [?|?] ?. Qed.

Lemma readSlice_length m s : validSlice m s → length (readSlice m s) = len s.
Proof.
  intros [H0|(arr & Harr & Hlen)].
  - by rewrite readSlice_empty, H0.
  - rewrite (readSlice_lookup _ _ _ Harr). rewrite length_take, length_drop. lia.
Qed.

Lemma overwrite_nil o arr : overwrite o [] arr = arr.
Proof. unfold overwrite. simpl. rewrite Nat.add_0_r. apply take_drop. Qed.

Lemma overwrite_length o w arr :
  o + length w ≤ length arr → length (overwrite o w arr) = length arr.
Proof.
  intros H. unfold overwrite. rewrite !length_app, length_take, length_drop. lia.
Qed.

Lemma overwrite_window o w arr :
  o + length w ≤ length arr → take (length w) (drop o (overwrite o w arr)) = w.
Proof.
  intros H. unfold overwrite.
  rewrite drop_app_length'; [|rewrite length_take; lia].
  by rewrite take_app_length.
Qed.

Lemma writeSlice_lookup m s w arr :
  m !! base s = Some arr →
  writeSlice m s w !! base s = Some (overwrite (off s) w arr).
Proof. intros H. unfold writeSlice. by rewrite list_lookup_alter_eq, H. Qed.

Lemma writeSlice_lookup_ne m s w b :
  b ≠ base s → writeSlice m s w !! b = m !! b.
Proof. intros H. unfold writeSlice. by rewrite list_lookup_alter_ne. Qed.

Lemma writeSlice_length m s w : length (writeSlice m s w) = length m.
Proof. unfold writeSlice. by rewrite length_alter. Qed.

Lemma writeSlice_nil m s : writeSlice m s [] = m.
Proof.
  unfold writeSlice. apply list_eq. intros i.
  destruct (decide (i = base s)) as [->|Hne].
  - rewrite list_lookup_alter_eq. destruct (m !! base s); [|done].
    simpl. by rewrite overwrite_nil.
  - by rewrite list_lookup_alter_ne.
Qed.

Lemma readSlice_writeSlice m s w :
  validSlice m s → length w = len s → readSlice (writeSlice m s w) s = w.
Proof.
  intros [H0|(arr & Harr & Hlen)] Hw.
  - rewrite readSlice_empty by done. rewrite H0 in Hw. by destruct w.
  - rewrite (readSlice_lookup _ _ _ (writeSlice_lookup _ _ w _ Harr)).
    rewrite <- Hw. apply overwrite_window. lia.
Qed.

Lemma validSlice_writeSlice m s s' w :
  validSlice m s → length w = len s → validSlice m s' → validSlice (writeSlice m s w) s'.
Proof.
  intros Hs Hw [?|(arr' & Harr' & Hlen')]; [by left|].
  destruct Hs as [H0|(arr & Harr & Hlen)].
  - rewrite H0 in Hw. destruct w; [|done]. rewrite writeSlice_nil. right. by exists arr'.
  - right. destruct (decide (base s' = base s)) as [Heq|Hne].
    + rewrite Heq in Harr'. simplify_eq. eexists. split.
      * rewrite Heq. by apply writeSlice_lookup.
      * rewrite overwrite_length; lia.
    + exists arr'. split; [|done]. by rewrite writeSlice_lookup_ne.
Qed.

Lemma validSlice_setLen m s n : validSlice m s → n ≤ len s → validSlice m (setLen s n).
Proof.
  intros [H0|(arr & Harr & Hlen)] Hn.
  - left. simpl. lia.
  - right. exists arr. simpl. split; [done|lia].
Qed.

Lemma allocArray_inArray m l : inArray (allocArray m l).1 (allocArray m l).2.
Proof.
  exists l. simpl. split; [|lia].
  rewrite lookup_app_r by lia. by rewrite Nat.sub_diag.
Qed.

Lemma allocArray_valid m l : validSlice (allocArray m l).1 (allocArray m l).2.
Proof. right. apply allocArray_inArray. Qed.

Lemma allocArray_read m l : readSlice (allocArray m l).1 (allocArray m l).2 = l.
Proof.
  rewrite (readSlice_lookup _ _ l); simpl.
  - by rewrite drop_0, firstn_all.
  - rewrite lookup_app_r by lia. by rewrite Nat.sub_diag.
Qed.

Lemma allocArray_old m l s :
  validSlice m s →
  validSlice (allocArray m l).1 s ∧ readSlice (allocArray m l).1 s = readSlice m s
  ∧ (len s ≠ 0 → base s ≠ base (allocArray m l).2).
Proof.
  intros [H0|(arr & Harr & Hlen)].
  - split_and!; [by left|by rewrite !readSlice_empty|done].
  - assert (Hlt : base s < length m) by (by eapply lookup_lt_Some).
    assert (Hnew : (m ++ [l]) !! base s = Some arr) by (by rewrite lookup_app_l).
    split_and!.
    + right. by exists arr.
    + simpl. by rewrite (readSlice_lookup _ _ _ Hnew), (readSlice_lookup _ _ _ Harr).
    + simpl. lia.
Qed.

End SliceFacts.

(** ** The suffix and the required flags *)

Lemma derivedSuffix_cons p ps :
  derivedSuffix (p :: ps) =
    if decide (isPathParam p) then ("/:" +:+ p_Name p) +:+ derivedSuffix ps
    else derivedSuffix ps.
Proof.
  unfold derivedSuffix. case_decide.
  - by rewrite filter_cons_True, fmap_cons, Join_empty_cons.
  - by rewrite filter_cons_False.
Qed.

Lemma insert_middle {A} (l1 l2 : list A) x y :
  <[length l1 := y]> (l1 ++ x :: l2) = l1 ++ y :: l2.
Proof. rewrite insert_app_r_alt by lia. by rewrite Nat.sub_diag. Qed.

Lemma initParamsAndSuffix_rounds rest done suf :
  fold_left initParamsAndSuffix_body (seq (length done) (length rest)) (done ++ rest, suf)
  = (done ++ (forceRequired <$> rest), suf +:+ derivedSuffix rest).
Proof.
  revert done suf. induction rest as [|p rest IH]; intros done suf.
  - simpl. by rewrite str_app_nil_r.
  - simpl. rewrite list_lookup_middle by done.
    rewrite derivedSuffix_cons. unfold forceRequired at 1.
    fold (isPathParam p). destruct (decide (isPathParam p)) as [Hp|Hp].
    + rewrite insert_middle.
      rewrite (cons_middle (setRequired p true)), app_assoc.
      replace (S (length done)) with (length (done ++ [setRequired p true]))
        by (rewrite length_app; simpl; lia).
      rewrite IH. by rewrite <- app_assoc, str_app_assoc.
    + rewrite (cons_middle p), app_assoc.
      replace (S (length done)) with (length (done ++ [p]))
        by (rewrite length_app; simpl; lia).
      rewrite IH. by rewrite <- app_assoc.
Qed.

Lemma initParamsAndSuffix_loop_spec w :
  initParamsAndSuffix_loop w = (forceRequired <$> w, derivedSuffix w).
Proof.
  unfold initParamsAndSuffix_loop.
  exact (initParamsAndSuffix_rounds w [] "").
Qed.

Lemma initParamsAndSuffix_fields pars a :
  validSlice pars (Params a) →
  let r := initParamsAndSuffix pars a in
  suffix r.2 = derivedSuffix (readSlice pars (Params a))
  ∧ Params r.2 = Params a
  ∧ readSlice r.1 (Params r.2) = forceRequired <$> readSlice pars (Params a)
  ∧ (Desc r.2, Types r.2, methods r.2, Handler r.2, id r.2, inited r.2)
    = (Desc a, Types a, methods a, Handler a, id a, inited a).
Proof.
  intros Hv. cbv zeta. unfold initParamsAndSuffix.
  rewrite initParamsAndSuffix_loop_spec. cbn [fst snd suffix Params].
  split_and!; try done.
  apply readSlice_writeSlice; [done|]. by rewrite length_fmap, readSlice_length.
Qed.

(** C5. [initParamsAndSuffix] sets the suffix to ["/:" + name] for the
    parameters located in the path, in the order of the declared list, and
    nothing for any other parameter; in the declared list, which it writes
    in place, the path parameters are now required and the other parameters
    are as they were.  Nothing else of the descriptor changes. *)
Theorem initParamsAndSuffix_derives pars a :
  validSlice pars (Params a) →
  let declared := readSlice pars (Params a) in
  let r := initParamsAndSuffix pars a in
  suffix r.2 = derivedSuffix declared
  ∧ Params r.2 = Params a
  ∧ readSlice r.1 (Params r.2) = forceRequired <$> declared
  ∧ Forall2 (λ p p',
       p_Name p' = p_Name p ∧ p_In p' = p_In p ∧ p_Format p' = p_Format p
       ∧ p_Desc p' = p_Desc p
       ∧ p_Required p' = if decide (p_In p = "path") then true else p_Required p)
      declared (readSlice r.1 (Params r.2))
  ∧ (Desc r.2, Types r.2, methods r.2, Handler r.2, id r.2, inited r.2)
    = (Desc a, Types a, methods a, Handler a, id a, inited a).
Proof.
  intros Hv. cbv zeta. unfold initParamsAndSuffix.
  rewrite initParamsAndSuffix_loop_spec. cbn [fst snd suffix Params].
  assert (Hread : readSlice (writeSlice pars (Params a)
                    (forceRequired <$> readSlice pars (Params a))) (Params a)
                  = forceRequired <$> readSlice pars (Params a)).
  { apply readSlice_writeSlice; [done|]. by rewrite length_fmap, readSlice_length. }
  rewrite Hread. split_and!; try done.
  apply Forall2_fmap_r, Forall_Forall2_diag, Forall_true. intros p.
  unfold forceRequired, isPathParam, isPathParam_dec. simpl. by case_decide.
Qed.

(** The declaration of the specification: the suffix is ["/:id"], [id]
    has become required, [name] has not. *)
Lemma initParamsAndSuffix_derives_witness :
  validSlice [ex_params] (Params ex_declaration)
  ∧ suffix (initParamsAndSuffix [ex_params] ex_declaration).2 = "/:id"
  ∧ p_Required <$> readSlice (initParamsAndSuffix [ex_params] ex_declaration).1
                     (Params ex_declaration) = [true; false].
Proof.
  assert (H : validSlice [ex_params] (Params ex_declaration)).
  { right. exists ex_params. split; [reflexivity|]. simpl. lia. }
  split; [exact H|].
  destruct (initParamsAndSuffix_derives [ex_params] ex_declaration H)
    as (Hs & _ & Hr & _).
  split; [by rewrite Hs|]. reflexivity.
Defined.

(** ** Sorting and removing repeats *)

Lemma dropRepeats_length prev l : length (dropRepeats prev l) ≤ length l.
Proof.
  revert prev. induction l as [|x l IH]; intros prev; simpl; [done|].
  case_decide; simpl.
  - specialize (IH prev). lia.
  - specialize (IH (Some x)). lia.
Qed.

Lemma dropRepeats_subseteq prev l x : x ∈ dropRepeats prev l → x ∈ l.
Proof.
  revert prev. induction l as [|y l IH]; intros prev; simpl; [done|].
  case_decide.
  - intros ?%IH. by right.
  - intros [->|?%IH]%elem_of_cons; [by left|by right].
Qed.

Lemma dropRepeats_elem prev l x : x ∈ l → x ∈ dropRepeats prev l ∨ prev = Some x.
Proof.
  revert prev. induction l as [|y l IH]; intros prev; simpl; [by intros ?%elem_of_nil|].
  intros [->|Hx]%elem_of_cons.
  - case_decide; [by right|left; by left].
  - case_decide as Hy.
    + by apply IH.
    + destruct (IH (Some y) Hx) as [?|[= ->]]; left; [by right|by left].
Qed.

Lemma dropRepeats_sorted prev l :
  StronglySorted String.le l →
  (∀ p, prev = Some p → Forall (String.le p) l) →
  StronglySorted str_lt (dropRepeats prev l)
  ∧ ∀ p, prev = Some p → Forall (str_lt p) (dropRepeats prev l).
Proof.
  revert prev. induction l as [|x l IH]; intros prev Hs Hp; simpl.
  - split; [constructor|]. by intros.
  - apply StronglySorted_cons in Hs as [Hx Hs].
    case_decide as Hprev.
    + apply IH; [done|]. intros p ->. by simplify_eq.
    + destruct (IH (Some x) Hs) as [IH1 IH2]; [by intros p [= <-]|].
      split.
      * apply StronglySorted_cons. split; [by apply IH2|done].
      * intros p ->. assert (Hpx : str_lt p x).
        { apply str_lt_iff. split; [|congruence].
          specialize (Hp p eq_refl). by apply Forall_cons in Hp as [? _]. }
        apply Forall_cons. split; [done|].
        eapply Forall_impl; [by apply IH2|]. intros z Hz. simpl in Hz. by etrans.
Qed.

Lemma normalizedTypes_sorted l : StronglySorted str_lt (normalizedTypes l).
Proof.
  unfold normalizedTypes.
  apply (dropRepeats_sorted None); [apply sortStrings_Sorted|done].
Qed.

Lemma normalizedTypes_elem l x : x ∈ normalizedTypes l ↔ x ∈ l.
Proof.
  unfold normalizedTypes. split.
  - intros ?%dropRepeats_subseteq. by apply sortStrings_elem.
  - intros Hx%sortStrings_elem.
    by destruct (dropRepeats_elem None _ _ Hx).
Qed.

Lemma str_lt_sorted_le l : StronglySorted str_lt l → StronglySorted String.le l.
Proof.
  induction 1 as [|x l Hs IH Hx]; constructor; [done|].
  eapply Forall_impl; [done|]. intros ?. apply str_lt_le.
Qed.

Lemma str_lt_sorted_NoDup l : StronglySorted str_lt l → NoDup l.
Proof.
  induction 1 as [|x l Hs IH Hx]; constructor; [|done].
  intros Hin. eapply (proj1 (Forall_forall _ _) Hx) in Hin.
  by apply irreflexivity in Hin; [|apply _].
Qed.

(** A list in strictly ascending order is determined by its elements. *)
Lemma str_lt_sorted_ext l1 l2 :
  StronglySorted str_lt l1 → StronglySorted str_lt l2 →
  (∀ x, x ∈ l1 ↔ x ∈ l2) → l1 = l2.
Proof.
  intros H1 H2 Hel. apply (StronglySorted_unique String.le).
  - by apply str_lt_sorted_le.
  - by apply str_lt_sorted_le.
  - apply NoDup_Permutation; [by apply str_lt_sorted_NoDup..|done].
Qed.

Lemma normalizedTypes_ext l1 l2 :
  (∀ x, x ∈ l1 ↔ x ∈ l2) → normalizedTypes l1 = normalizedTypes l2.
Proof.
  intros H. apply str_lt_sorted_ext; [apply normalizedTypes_sorted..|].
  intros x. by rewrite !normalizedTypes_elem.
Qed.

(** ** The loop of [initTypes] *)

Lemma previous_is_last {A} (kept rest : list A) (t : A) :
  (0 < length kept ∧ (kept ++ rest) !! (length kept - 1) = Some t) ↔ last kept = Some t.
Proof.
  destruct kept as [|x kept _] using rev_ind.
  - simpl. split; [lia|done].
  - rewrite last_snoc, length_app. simpl.
    replace (length kept + 1 - 1) with (length kept) by lia.
    rewrite <- app_assoc. simpl. rewrite list_lookup_middle by done.
    split; [by intros [_ ?]|]. intros ?. split; [lia|done].
Qed.

Lemma last_app_cons_same {A} (kept rest : list A) (t : A) :
  last kept = Some t → last (kept ++ t :: rest) = last (kept ++ rest).
Proof.
  intros Hk. destruct rest as [|y rest _] using rev_ind.
  - by rewrite app_nil_r, last_snoc.
  - by rewrite (app_assoc kept), (app_comm_cons rest), (app_assoc kept), !last_snoc.
Qed.

Section InitTypes.
Variable G : string → string.

Lemma initTypes_rounds rest kept beyond ms rounds :
  length rest ≤ rounds →
  initTypes_loop G rounds (length kept) (length (kept ++ rest)) (length (kept ++ rest))
                 ((kept ++ rest) ++ beyond) ms
  = (kept ++ dropRepeats (last kept) rest
       ++ replicate (length rest - length (dropRepeats (last kept) rest))
                    (default "" (last (kept ++ rest)))
       ++ beyond,
     length kept + length (dropRepeats (last kept) rest),
     ms ++ (G <$> dropRepeats (last kept) rest)).
Proof.
  revert kept beyond ms rounds.
  induction rest as [|t rest IH]; intros kept beyond ms rounds Hr.
  - rewrite !app_nil_r. simpl. rewrite Nat.add_0_r.
    destruct rounds; simpl; [done|]. by rewrite decide_False by lia.
  - destruct rounds as [|rounds]; simpl in Hr; [lia|]. simpl.
    rewrite decide_True by (rewrite length_app; simpl; lia).
    assert (Hlk : ((kept ++ t :: rest) ++ beyond) !! length kept = Some t).
    { rewrite <- app_assoc. by apply list_lookup_middle. }
    rewrite Hlk.
    destruct (decide (last kept = Some t)) as [Hlast|Hlast].
    + rewrite decide_True by (rewrite <- app_assoc; by apply previous_is_last).
      assert (Hsome : is_Some (last (kept ++ t :: rest))).
      { rewrite last_app. simpl. destruct (last (t :: rest)) eqn:E; [by eexists|].
        by apply last_None in E. }
      destruct Hsome as [z Hzl].
      destruct (proj1 (last_Some _ _) Hzl) as [V0 HV0].
      assert (Hlen : length (kept ++ t :: rest) = S (length (kept ++ rest))).
      { rewrite !length_app. simpl. lia. }
      assert (Hw' : take (length kept) ((kept ++ t :: rest) ++ beyond)
                    ++ drop (length kept + 1)
                         (take (length (kept ++ t :: rest)) ((kept ++ t :: rest) ++ beyond))
                    ++ drop (length (kept ++ t :: rest) - 1) ((kept ++ t :: rest) ++ beyond)
                    = (kept ++ rest) ++ z :: beyond).
      { rewrite take_app_length.
        rewrite <- (app_assoc kept (t :: rest) beyond), take_app_length.
        replace (drop (length kept + 1) (kept ++ t :: rest)) with rest.
        2:{ rewrite (cons_middle t kept rest), app_assoc.
            by rewrite drop_app_length' by (rewrite length_app; simpl; lia). }
        rewrite (app_assoc kept (t :: rest) beyond).
        replace (length (kept ++ t :: rest) - 1) with (length V0)
          by (rewrite HV0, length_app; simpl; lia).
        rewrite HV0, <- (app_assoc V0 [z] beyond), drop_app_length.
        by rewrite <- app_assoc. }
      rewrite Hw'. rewrite Hlen. simpl. rewrite Nat.sub_0_r.
      rewrite IH by lia.
      rewrite (last_app_cons_same _ _ _ Hlast) in Hzl.
      rewrite (last_app_cons_same _ _ _ Hlast), Hzl.
      pose proof (dropRepeats_length (last kept) rest).
      replace (S (length rest) - length (dropRepeats (last kept) rest))
        with (S (length rest - length (dropRepeats (last kept) rest))) by lia.
      rewrite replicate_S_end. simpl. by rewrite <- !app_assoc.
    + rewrite decide_False by (rewrite <- app_assoc; by rewrite previous_is_last).
      replace (length kept + 1) with (length (kept ++ [t]))
        by (rewrite length_app; simpl; lia).
      replace (kept ++ t :: rest) with ((kept ++ [t]) ++ rest)
        by (by rewrite <- !app_assoc).
      rewrite IH by lia. rewrite last_snoc.
      rewrite <- !app_assoc. simpl. rewrite length_app. simpl.
      do 2 f_equal. lia.
Qed.

Lemma initTypes_loop_spec sorted ms :
  initTypes_loop G (length sorted) 0 (length sorted) (length sorted) sorted ms
  = (dropRepeats None sorted
       ++ replicate (length sorted - length (dropRepeats None sorted))
                    (default "" (last sorted)),
     length (dropRepeats None sorted),
     ms ++ (G <$> dropRepeats None sorted)).
Proof.
  pose proof (initTypes_rounds sorted [] [] ms (length sorted)) as H.
  simpl in H. rewrite !app_nil_r in H. by apply H.
Qed.

End InitTypes.

Section SliceFacts2.
Context {T : Type}.
Implicit Types (m : list (list T)) (s : Slice) (w arr : list T).

Lemma readSlice_setLen_take m s n :
  n ≤ len s → readSlice m (setLen s n) = take n (readSlice m s).
Proof.
  intros H. unfold readSlice. simpl. rewrite take_take.
  by replace (n `min` len s) with n by lia.
Qed.

Lemma overwrite_same o n arr :
  o + n ≤ length arr → overwrite o (take n (drop o arr)) arr = arr.
Proof.
  intros H. unfold overwrite.
  rewrite length_take, length_drop. replace (n `min` (length arr - o)) with n by lia.
  rewrite <- drop_drop, (take_drop n (drop o arr)). apply take_drop.
Qed.

Lemma writeSlice_same m s : validSlice m s → writeSlice m s (readSlice m s) = m.
Proof.
  intros [H0|(arr & Harr & Hlen)].
  { rewrite readSlice_empty by done. apply writeSlice_nil. }
  unfold writeSlice. rewrite (readSlice_lookup _ _ _ Harr).
  apply list_eq. intros i. destruct (decide (i = base s)) as [->|Hne].
  - rewrite list_lookup_alter_eq, Harr. simpl. by rewrite overwrite_same.
  - by rewrite list_lookup_alter_ne.
Qed.

End SliceFacts2.

Section InitTypesStore.
Variable G : string → string.

Lemma sortStrings_allMethods : sortStrings allMethods = allMethods.
Proof. reflexivity. Qed.

Lemma initTypes_empty strs a :
  len (Types a) = 0 →
  initTypes G strs a
  = (strs ++ [allMethods],
     mkApiHandler (Desc a) (mkSlice (length strs) 0 9) (methods a) (Params a)
                  (Handler a) (id a) (suffix a) (inited a)).
Proof.
  intros H0. unfold initTypes. rewrite H0. simpl.
  pose proof (allocArray_read strs allMethods) as Hr.
  pose proof (allocArray_valid strs allMethods) as Hv.
  simpl in Hr, Hv.
  assert (Hw : writeSlice (strs ++ [allMethods]) (mkSlice (length strs) 0 9) allMethods
               = strs ++ [allMethods]).
  { rewrite <- Hr at 2. by apply writeSlice_same. }
  by rewrite Hr, sortStrings_allMethods, Hw, Hr, Hw.
Qed.

Lemma initTypes_nonempty strs a :
  validSlice strs (Types a) →
  len (Types a) ≠ 0 →
  let declared := readSlice strs (Types a) in
  let kept := normalizedTypes declared in
  let filled := kept ++ replicate (len (Types a) - length kept)
                                  (default "" (last (sortStrings declared))) in
  initTypes G strs a
  = (writeSlice (writeSlice strs (Types a) (sortStrings declared)) (Types a) filled,
     mkApiHandler (Desc a) (setLen (Types a) (length kept)) (methods a ++ (G <$> kept))
                  (Params a) (Handler a) (id a) (suffix a) (inited a)).
Proof.
  intros Hv Hn. cbv zeta. unfold initTypes. rewrite decide_False by done.
  assert (Hlen : len (Types a) = length (sortStrings (readSlice strs (Types a)))).
  { by rewrite sortStrings_length, readSlice_length. }
  rewrite readSlice_writeSlice by done.
  rewrite Hlen at 1 2 3. rewrite initTypes_loop_spec.
  unfold normalizedTypes. by rewrite <- Hlen.
Qed.

Lemma initTypes_nonempty_read strs a :
  validSlice strs (Types a) →
  len (Types a) ≠ 0 →
  let declared := readSlice strs (Types a) in
  let r := initTypes G strs a in
  validSlice r.1 (Types r.2)
  ∧ readSlice r.1 (Types r.2) = normalizedTypes declared
  ∧ readSlice r.1 (Types a)
    = normalizedTypes declared
        ++ replicate (len (Types a) - length (normalizedTypes declared))
                     (default "" (last (sortStrings declared)))
  ∧ methods r.2 = methods a ++ (G <$> normalizedTypes declared)
  ∧ length r.1 = length strs
  ∧ (∀ b, b ≠ base (Types a) → r.1 !! b = strs !! b).
Proof.
  intros Hv Hn. cbv zeta. rewrite initTypes_nonempty by done. cbn [fst snd Types methods].
  set (declared := readSlice strs (Types a)).
  set (kept := normalizedTypes declared).
  set (filled := kept ++ replicate _ _).
  assert (Hk : length kept ≤ len (Types a)).
  { unfold kept, normalizedTypes. etrans; [apply dropRepeats_length|].
    unfold declared. by rewrite sortStrings_length, readSlice_length. }
  assert (Hf : length filled = len (Types a)).
  { unfold filled. rewrite length_app, length_replicate. lia. }
  assert (Hv2 : validSlice (writeSlice strs (Types a) (sortStrings declared)) (Types a)).
  { apply validSlice_writeSlice; [done| |done].
    unfold declared. by rewrite sortStrings_length, readSlice_length. }
  assert (Hv3 : validSlice (writeSlice (writeSlice strs (Types a) (sortStrings declared))
                              (Types a) filled) (Types a)).
  { by apply validSlice_writeSlice. }
  assert (Hread : readSlice (writeSlice (writeSlice strs (Types a) (sortStrings declared))
                              (Types a) filled) (Types a) = filled).
  { by apply readSlice_writeSlice. }
  split_and!.
  - by apply validSlice_setLen.
  - rewrite readSlice_setLen_take by done. rewrite Hread. unfold filled.
    by rewrite take_app_length.
  - done.
  - done.
  - by rewrite !writeSlice_length.
  - intros b Hb. by rewrite !writeSlice_lookup_ne.
Qed.

End InitTypesStore.

(** C4, as amended.  After [initTypes] the types of the descriptor are in
    strictly ascending byte-wise order, so without duplicates.  An empty
    declared list has become the full standard method set.  A non-empty
    declared list has kept exactly its elements, strings that differ in case
    being different elements, and one method has been resolved, in this
    order, for each type that is left. *)
Theorem initTypes_normalizes (G : string → string) strs a :
  validSlice strs (Types a) →
  let declared := readSlice strs (Types a) in
  let r := initTypes G strs a in
  let final := readSlice r.1 (Types r.2) in
  StronglySorted str_lt final
  ∧ (declared = [] → final = allMethods)
  ∧ (declared ≠ [] →
       (∀ x, x ∈ final ↔ x ∈ declared)
       ∧ final = normalizedTypes declared
       ∧ methods r.2 = methods a ++ (G <$> final)).
Proof.
  intros Hv. cbv zeta.
  pose proof (readSlice_length _ _ Hv) as Hlen.
  destruct (decide (len (Types a) = 0)) as [H0|H0].
  - rewrite initTypes_empty by done. cbn [fst snd Types].
    pose proof (allocArray_read strs allMethods) as Hr. simpl in Hr. rewrite Hr.
    split_and!.
    + repeat constructor.
    + done.
    + intros Hne. destruct (readSlice strs (Types a)); [done|]. simpl in Hlen. lia.
  - destruct (initTypes_nonempty_read G strs a Hv H0) as (_ & Hr & _ & Hm & _).
    rewrite Hr, Hm. split_and!.
    + apply normalizedTypes_sorted.
    + intros Hd. rewrite Hd in Hlen. simpl in Hlen. lia.
    + intros _. split_and!; [|done..]. intros x. apply normalizedTypes_elem.
Qed.

(** The declaration of the specification keeps its three types, [get]
    after the two in capitals, and gets three methods. *)
Lemma initTypes_normalizes_witness :
  validSlice [ex_types] (Types ex_declaration)
  ∧ readSlice (initTypes (λ t, t) [ex_types] ex_declaration).1
              (Types (initTypes (λ t, t) [ex_types] ex_declaration).2)
    = ["GET"; "POST"; "get"]
  ∧ methods (initTypes (λ t, t) [ex_types] ex_declaration).2 = ["GET"; "POST"; "get"].
Proof.
  assert (H : validSlice [ex_types] (Types ex_declaration)).
  { right. exists ex_types. split; [reflexivity|]. simpl. lia. }
  split; [exact H|].
  destruct (initTypes_normalizes (λ t, t) [ex_types] ex_declaration H)
    as (_ & _ & Hne).
  destruct Hne as (_ & Hf & Hm); [done|].
  split; [by rewrite Hf|]. by rewrite Hm, Hf.
Defined.

(** C4, as stated, fails: whatever [GetMethodFromType] is, the declared types
    [["GET", "get", "POST"]] do not end as two methods. *)
Lemma initTypes_case_variants_counterexample :
  ¬ ∃ G : string → string,
      length (methods (initTypes G [ex_types] ex_declaration).2) = 2.
Proof. intros [G H]. vm_compute in H. discriminate. Qed.

(** ** Two callers at the same time *)

(** C9 fails on the code.  Two callers register the same declaration.  When
    each one has looked the identity up before the other has stored its
    descriptor, both store: the ordered list holds two descriptors of the
    same identity, the map keeps only the second, and the first caller holds
    a descriptor that the map does not know.  When the second caller starts
    after the first has returned, there is one descriptor and both hold it. *)
Theorem concurrent_Reg_stores_twice (G : string → string) :
  (let r := run_schedule G [0; 1; 0; 1] ([Calling ex_ping; Calling ex_ping], emptyApiStore) in
   r.1 = [Returned (Some 0); Returned (Some 1)]
   ∧ apiHandlers r.2 = [0; 1]
   ∧ enumerateIds r.2 = [ex_ping_id; ex_ping_id]
   ∧ apiHandlerMap r.2 = {[ ex_ping_id := 1 ]})
  ∧ (let r := run_schedule G [0; 0; 1; 1] ([Calling ex_ping; Calling ex_ping], emptyApiStore) in
     r.1 = [Returned (Some 0); Returned (Some 0)]
     ∧ apiHandlers r.2 = [0]
     ∧ enumerateIds r.2 = [ex_ping_id]
     ∧ apiHandlerMap r.2 = {[ ex_ping_id := 0 ]}).
Proof. split; vm_compute; repeat split. Qed.

(** A caller that is left alone for its two steps does what [Reg] does. *)
Lemma caller_alone_is_Reg (G : string → string) a σ :
  let '(c1, σ1) := caller_step G (Calling a) σ in
  caller_step G c1 σ1 = (Returned (Reg G a σ).1, (Reg G a σ).2).
Proof.
  unfold Reg, init, caller_step. destruct (newObject a σ) as [p σ0].
  by destruct (init_lookup G p σ0) as [[h|q] σ1].
Qed.

(** ** Cutting and splitting strings *)

Lemma stripPrefix_Some pre s rest : stripPrefix pre s = Some rest ↔ s = pre +:+ rest.
Proof.
  revert s. induction pre as [|c pre IH]; intros s; simpl.
  - split; [by intros [= ->]|by intros ->].
  - destruct s as [|d s]; [done|]. rewrite str_app_cons.
    case_decide as Hcd.
    + subst d. rewrite IH. split; [by intros ->|by intros [= ->]].
    + split; [done|]. intros [= ? ?]. by subst.
Qed.

Lemma str_app_nil_inv (s1 s2 : string) : s1 +:+ s2 = "" → s1 = "" ∧ s2 = "".
Proof. destruct s1; [intros H; split; [done|exact H]|done]. Qed.

Lemma Cut_Some s sep b a :
  strings_Cut s sep = Some (b, a) →
  s = b +:+ sep +:+ a
  ∧ ∀ pre post, s = pre +:+ sep +:+ post → String.length b ≤ String.length pre.
Proof.
  revert b. induction s as [|c s IH]; intros b; simpl.
  - destruct (stripPrefix sep "") as [rest|] eqn:E; [|done].
    intros [= <- <-]. apply stripPrefix_Some in E. split; [done|]. simpl. lia.
  - destruct (stripPrefix sep (String c s)) as [rest|] eqn:E.
    + intros [= <- <-]. apply stripPrefix_Some in E. split; [done|]. simpl. lia.
    + destruct (strings_Cut s sep) as [[b' a']|] eqn:Ecut; [|done].
      intros [= <- <-]. destruct (IH b' eq_refl) as [Hs Hmin]. split.
      * by rewrite str_app_cons, <- Hs.
      * intros [|c' pre] post Hpre.
        -- apply (proj2 (stripPrefix_Some sep (String c s) post)) in Hpre. congruence.
        -- rewrite str_app_cons in Hpre. injection Hpre as -> Hpre.
           specialize (Hmin _ _ Hpre). simpl. lia.
Qed.

Lemma Cut_None s sep : strings_Cut s sep = None → ¬ occursIn sep s.
Proof.
  induction s as [|c s IH]; simpl.
  - destruct (stripPrefix sep "") as [rest|] eqn:E; [done|]. intros _ (pre & post & H).
    symmetry in H. apply str_app_nil_inv in H as [-> H].
    assert (stripPrefix sep "" = Some post) by (by apply stripPrefix_Some). congruence.
  - destruct (stripPrefix sep (String c s)) as [rest|] eqn:E; [done|].
    destruct (strings_Cut s sep) as [[b' a']|] eqn:Ecut; [done|].
    intros _ ([|c' pre] & post & H).
    + apply (proj2 (stripPrefix_Some sep (String c s) post)) in H. congruence.
    + rewrite str_app_cons in H. injection H as -> H.
      apply IH; [done|]. by exists pre, post.
Qed.

Lemma Cut_beforeFirst s sep :
  beforeFirst sep s (match strings_Cut s sep with Some (b, _) => b | None => s end).
Proof.
  destruct (strings_Cut s sep) as [[b a]|] eqn:E.
  - right. apply Cut_Some in E as [Hs Hmin]. split; [by exists a|done].
  - left. split; [by apply Cut_None|done].
Qed.

Lemma Split_rounds_hd rounds s sep :
  hd "" (Split_rounds rounds s sep)
  = match strings_Cut s sep with Some (b, _) => b | None => s end.
Proof. destruct rounds; simpl; by destruct (strings_Cut s sep) as [[b a]|]. Qed.

Lemma Split_hd s sep :
  hd "" (strings_Split s sep)
  = match strings_Cut s sep with Some (b, _) => b | None => s end.
Proof. apply Split_rounds_hd. Qed.

Lemma Split_rounds_nonempty rounds s sep : Split_rounds rounds s sep ≠ [].
Proof. destruct rounds; simpl; by destruct (strings_Cut s sep) as [[b a]|]. Qed.

Lemma Join_cons x l sep :
  l ≠ [] → strings_Join (x :: l) sep = x +:+ sep +:+ strings_Join l sep.
Proof. unfold strings_Join. by destruct l. Qed.

Lemma Join_Split_rounds rounds s sep :
  sep ≠ "" → String.length s ≤ rounds → strings_Join (Split_rounds rounds s sep) sep = s.
Proof.
  intros Hsep. revert s. induction rounds as [|rounds IH]; intros s Hlen.
  - destruct s; [|simpl in Hlen; lia]. cbn [Split_rounds].
    destruct (strings_Cut "" sep) as [[b a]|] eqn:E; [|done].
    apply Cut_Some in E as [E _]. symmetry in E.
    apply str_app_nil_inv in E as [_ E]. by apply str_app_nil_inv in E as [? _].
  - simpl. destruct (strings_Cut s sep) as [[b a]|] eqn:E; [|done].
    apply Cut_Some in E as [E _].
    rewrite Join_cons by apply Split_rounds_nonempty.
    rewrite IH; [done|].
    rewrite E, !str_app_length in Hlen.
    destruct sep; [done|]. simpl in Hlen. lia.
Qed.

Lemma Split_tail s sep :
  sep ≠ "" →
  match strings_Cut s sep with
  | Some (_, a) => 1 < length (strings_Split s sep)
                   ∧ strings_Join (tail (strings_Split s sep)) sep = a
  | None => length (strings_Split s sep) = 1
  end.
Proof.
  intros Hsep. unfold strings_Split.
  destruct (strings_Cut s sep) as [[b a]|] eqn:E.
  - pose proof E as [Hs _]%Cut_Some.
    assert (Hlen : String.length a < String.length s).
    { rewrite Hs, !str_app_length. destruct sep; [done|]. simpl. lia. }
    destruct (String.length s) as [|n] eqn:En; [lia|].
    simpl. rewrite E. simpl. split.
    + pose proof (Split_rounds_nonempty n a sep).
      destruct (Split_rounds n a sep); [done|]. simpl. lia.
    + apply Join_Split_rounds; [done|lia].
  - destruct (String.length s); simpl; by rewrite E.
Qed.

(** ** Cleaning a rooted path *)

Lemma Cut_before_no_sep s sep b a :
  sep ≠ "" → strings_Cut s sep = Some (b, a) → ¬ occursIn sep b.
Proof.
  intros Hsep [Hs Hmin]%Cut_Some (p1 & p2 & Hb).
  specialize (Hmin p1 (p2 +:+ sep +:+ a)).
  rewrite Hb, !str_app_length in Hmin.
  destruct sep; [done|]. simpl in Hmin.
  assert (String.length p1 + S (String.length sep + String.length p2)
          ≤ String.length p1); [|lia].
  apply Hmin. rewrite Hs, Hb. by rewrite !str_app_assoc.
Qed.

Lemma Split_rounds_no_sep rounds s sep :
  sep ≠ "" → Forall (λ e, ¬ occursIn sep e) (Split_rounds rounds s sep).
Proof.
  intros Hsep. revert s. induction rounds as [|rounds IH]; intros s; simpl.
  - destruct (strings_Cut s sep) as [[b a]|] eqn:E; repeat constructor.
    + by eapply Cut_before_no_sep.
    + by apply Cut_None.
  - destruct (strings_Cut s sep) as [[b a]|] eqn:E.
    + constructor; [by eapply Cut_before_no_sep|apply IH].
    + repeat constructor. by apply Cut_None.
Qed.

Lemma clean_step_rooted out e :
  ¬ occursIn "/" e → Forall cleanElement out → Forall cleanElement (clean_step true out e).
Proof.
  intros He Hout. unfold clean_step. repeat case_decide; try done.
  - destruct out; [done|]. by apply Forall_cons in Hout as [_ ?].
  - by constructor.
Qed.

Lemma clean_fold_rooted elems out :
  Forall (λ e, ¬ occursIn "/" e) elems → Forall cleanElement out →
  Forall cleanElement (fold_left (clean_step true) elems out).
Proof.
  revert out. induction elems as [|e elems IH]; intros out He Hout; simpl; [done|].
  apply Forall_cons in He as [He1 He2]. apply IH; [done|]. by apply clean_step_rooted.
Qed.

Lemma path_Clean_rooted p : is_rooted p = true → cleanRooted (path_Clean p).
Proof.
  intros Hr. unfold path_Clean. rewrite decide_False by (by intros ->). rewrite Hr.
  eexists. split; [done|]. apply Forall_rev.
  apply clean_fold_rooted; [|done]. by apply Split_rounds_no_sep.
Qed.

Lemma cleanRooted_is_rooted p : cleanRooted p → is_rooted p = true.
Proof. by intros (elems & -> & _). Qed.

Lemma path_Join_root raw : path_Join ["/"; raw] = path_Clean ("/" +:+ "/" +:+ raw).
Proof. done. Qed.

Lemma beforeFirst_rooted sep s b c :
  beforeFirst (String c sep) s b → c ≠ "/"%char → is_rooted s = true → is_rooted b = true.
Proof.
  intros [[_ ->]|[[rest Hs] _]] Hc Hr; [done|].
  destruct s as [|d s]; [done|]. destruct b as [|d' b].
  - injection Hs as -> _. simpl in Hr. destruct c as [[] [] [] [] [] [] [] []]; done.
  - injection Hs as -> _. done.
Qed.

(** ** The prefix *)

(** X14. [creatPrefix], statement by statement.  The raw prefix joined under
    the root and cleaned is a slash followed by elements that are neither
    empty nor dot segments, one slash between two.  The prefix returned is
    what stands in that path before its first ["?"]; it starts with a slash.
    It is cut at its first ["/:"] : [prefixPath] is what stands before it,
    [prefixParam] is the rest, marker included, and without a marker
    [prefixParam] is empty and [prefixPath] is the whole prefix. *)
Theorem creatPrefix_decomposes :
  (∀ raw,
     let joined := path_Clean (path_Join ["/"; raw]) in
     let cleanPrefix := (creatPrefix raw).1.1 in
     let prefixPath := (creatPrefix raw).1.2 in
     let prefixParam := (creatPrefix raw).2 in
     cleanRooted joined
     ∧ beforeFirst "?" joined cleanPrefix
     ∧ is_rooted cleanPrefix = true
     ∧ cleanPrefix = prefixPath +:+ prefixParam
     ∧ beforeFirst "/:" cleanPrefix prefixPath
     ∧ (occursIn "/:" cleanPrefix → ∃ rest, prefixParam = "/:" +:+ rest)
     ∧ (¬ occursIn "/:" cleanPrefix → prefixParam = "" ∧ prefixPath = cleanPrefix))
  ∧ creatPrefix "/users/:id/posts" = ("/users/:id/posts", "/users", "/:id/posts")
  ∧ creatPrefix "users" = ("/users", "/users", "").
Proof.
  split; [|split; reflexivity].
  intros raw. cbv zeta. unfold creatPrefix. cbn [fst snd].
  set (joined := path_Clean (path_Join ["/"; raw])).
  assert (Hj : cleanRooted joined).
  { unfold joined. rewrite path_Join_root.
    apply path_Clean_rooted, cleanRooted_is_rooted, path_Clean_rooted. done. }
  rewrite !Split_hd.
  set (cp := match strings_Cut joined "?" with Some (b, _) => b | None => joined end).
  assert (Hcp : beforeFirst "?" joined cp) by apply Cut_beforeFirst.
  pose proof (Cut_beforeFirst cp "/:") as Hpp.
  pose proof (Split_tail cp "/:") as Htail.
  destruct (strings_Cut cp "/:") as [[b a]|] eqn:E.
  - destruct Htail as [Hlen Hjoin]; [done|].
    rewrite decide_True by done. rewrite Hjoin.
    pose proof E as [Hs _]%Cut_Some.
    split_and!; try done.
    + eapply (beforeFirst_rooted ""); [exact Hcp|done|by apply cleanRooted_is_rooted].
    + by exists a.
    + intros Hno. destruct Hno. by exists b, a.
  - rewrite Htail by done. rewrite decide_False by lia.
    split_and!; try done.
    + eapply (beforeFirst_rooted ""); [exact Hcp|done|by apply cleanRooted_is_rooted].
    + by rewrite str_app_nil_r.
    + intros Hocc. by apply Cut_None in E.
Qed.

(** C6. The prefix [creatPrefix] returns is not always the cleaned prefix of
    the raw one without its query.  [creatPrefix] cleans first and looks for
    the ["?"] afterwards, in the cleaned path, and what it keeps is not
    cleaned again.  On ["/a/?x=1"] it returns ["/a/"], with the slash that
    [path.Clean] removes; on ["a/..?x"] it returns ["/a/.."], the dot segment
    still there; on ["a?b/../c"] the element with the ["?"] is gone before
    the cut and it returns ["/c"], which is text from behind the ["?"]; on
    ["/users/:id/?page=1"] the parameter part ends in a slash. *)
Theorem creatPrefix_keeps_unclean_prefix :
  (creatPrefix "/a/?x=1" = ("/a/", "/a/", "")
   ∧ path_Clean "/a/" = "/a" ∧ cleanedPrefix "/a/?x=1" = "/a")
  ∧ (creatPrefix "a/..?x" = ("/a/..", "/a/..", "")
     ∧ path_Clean "/a/.." = "/" ∧ cleanedPrefix "a/..?x" = "/")
  ∧ (creatPrefix "a?b/../c" = ("/c", "/c", "") ∧ cleanedPrefix "a?b/../c" = "/a")
  ∧ (creatPrefix "/users/:id/?page=1" = ("/users/:id/", "/users", "/:id/")
     ∧ cleanedPrefix "/users/:id/?page=1" = "/users/:id").
Proof. repeat split; vm_compute; reflexivity. Qed.

(** ** Writing through a slice *)

Section SliceWrites.
Context {T : Type}.
Implicit Types (m : list (list T)) (s : Slice) (w arr : list T).

Lemma readSlice_ext m m' s : m' !! base s = m !! base s → readSlice m' s = readSlice m s.
Proof.
  intros H. unfold readSlice. f_equal. f_equal.
  by rewrite !list_lookup_total_alt, H.
Qed.

Lemma readSlice_writeSlice_ne m s s' w :
  base s' ≠ base s → readSlice (writeSlice m s w) s' = readSlice m s'.
Proof. intros H. apply readSlice_ext. by apply writeSlice_lookup_ne. Qed.

Lemma setIndex_Some m s i x m' :
  setIndex m s i x = Some m' ↔
    i < len s ∧ m' = alter (λ arr, <[off s + i := x]> arr) (base s) m.
Proof.
  unfold setIndex. case_decide.
  - split; [by intros [= <-]|by intros [_ ->]].
  - split; [done|]. intros [? _]. lia.
Qed.

Lemma setIndex_read m s i x m' :
  validSlice m s → setIndex m s i x = Some m' →
  readSlice m' s = <[i := x]> (readSlice m s).
Proof.
  intros Hv [Hi ->]%setIndex_Some.
  destruct Hv as [H0|(arr & Harr & Hlen)]; [lia|].
  rewrite (readSlice_lookup _ _ (<[off s + i := x]> arr)).
  - rewrite (readSlice_lookup _ _ _ Harr).
    rewrite drop_insert_ge by lia. rewrite take_insert_lt by lia.
    by replace (off s + i - off s) with i by lia.
  - by rewrite list_lookup_alter_eq, Harr.
Qed.

Lemma setIndex_read_ne m s s' i x m' :
  base s' ≠ base s → setIndex m s i x = Some m' → readSlice m' s' = readSlice m s'.
Proof.
  intros Hne [_ ->]%setIndex_Some. apply readSlice_ext.
  by rewrite list_lookup_alter_ne.
Qed.

Lemma inArray_allocated m s : inArray m s → base s < length m.
Proof. intros (arr & Harr & _). by eapply lookup_lt_Some. Qed.

End SliceWrites.

(** ** The accessors of a [VirtHandler] *)

Lemma Methods_copies v strs :
  validSlice strs (v_methods v) →
  (VirtHandler_Methods v strs).1
    = strs ++ [readSlice strs (v_methods v)]
  ∧ (VirtHandler_Methods v strs).2 = mkSlice (length strs) 0 (len (v_methods v)).
Proof.
  intros Hv. unfold VirtHandler_Methods, copySlice. simpl.
  rewrite length_replicate. split; [|done].
  pose proof (allocArray_old strs (replicate (len (v_methods v)) "") _ Hv)
    as (_ & Hr & _). simpl in Hr. rewrite Hr.
  rewrite take_ge by (by rewrite readSlice_length).
  unfold writeSlice. simpl.
  rewrite alter_app_r_alt by lia. rewrite Nat.sub_diag. simpl. f_equal. f_equal.
  unfold overwrite. simpl. rewrite drop_ge; [by rewrite app_nil_r|].
  rewrite length_replicate, readSlice_length by done. lia.
Qed.

Lemma Params_rounds pars src w n j k :
  validSlice pars src → readSlice pars src = w → length w = n → k + j ≤ n →
  fold_left (Params_body src (mkSlice (length pars) 0 n)) (seq k j)
            (pars ++ [take k w ++ replicate (n - k) zeroParam])
  = pars ++ [take (k + j) w ++ replicate (n - (k + j)) zeroParam].
Proof.
  intros Hv Hw Hn. revert k. induction j as [|j IH]; intros k Hk; simpl.
  - by rewrite Nat.add_0_r.
  - assert (Hsrc : readSlice (pars ++ [take k w ++ replicate (n - k) zeroParam]) src = w).
    { transitivity (readSlice pars src); [|done].
      exact (proj1 (proj2 (allocArray_old pars
               (take k w ++ replicate (n - k) zeroParam) src Hv))). }
    destruct (lookup_lt_is_Some_2 w k) as [val Hval]; [lia|].
    unfold Params_body at 2. unfold getIndex. rewrite Hsrc, Hval.
    unfold setIndex. simpl. rewrite decide_True by lia. simpl.
    rewrite alter_app_r_alt by lia. rewrite Nat.sub_diag. simpl.
    assert (Hins : <[k := val]> (take k w ++ replicate (n - k) zeroParam)
                   = take (S k) w ++ replicate (n - S k) zeroParam).
    { replace (n - k) with (S (n - S k)) by lia. simpl.
      rewrite insert_app_r_alt by (rewrite length_take; lia).
      rewrite length_take. replace (k - k `min` length w) with 0 by lia. simpl.
      by rewrite (take_S_r _ _ _ Hval), <- app_assoc. }
    rewrite Hins. rewrite IH by lia. by replace (S k + j) with (k + S j) by lia.
Qed.

Lemma Params_copies v pars :
  validSlice pars (v_params v) →
  (VirtHandler_Params v pars).1
    = pars ++ [readSlice pars (v_params v)]
  ∧ (VirtHandler_Params v pars).2 = mkSlice (length pars) 0 (len (v_params v)).
Proof.
  intros Hv. unfold VirtHandler_Params. simpl. rewrite length_replicate.
  split; [|done].
  pose proof (Params_rounds pars (v_params v) (readSlice pars (v_params v))
                (len (v_params v)) (len (v_params v)) 0 Hv eq_refl
                (readSlice_length _ _ Hv)) as H.
  simpl in H. rewrite Nat.sub_0_r, Nat.sub_diag in H. simpl in H.
  rewrite H by lia. rewrite app_nil_r. f_equal. f_equal.
  apply take_ge. by rewrite readSlice_length.
Qed.

Section Copies.
Context {T : Type}.
Implicit Types (m : list (list T)) (s : Slice).

Lemma fresh_array_is_copy m s :
  validSlice m s →
  isDefensiveCopy m s (m ++ [readSlice m s]) (mkSlice (length m) 0 (len s)).
Proof.
  intros Hv.
  pose proof (allocArray_read m (readSlice m s)) as Hr.
  pose proof (allocArray_valid m (readSlice m s)) as Hval.
  simpl in Hr, Hval. rewrite readSlice_length in Hr, Hval by done.
  assert (Hold : ∀ s0, validSlice m s0 →
            (len s0 ≠ 0 → base s0 ≠ length m)
            ∧ readSlice (m ++ [readSlice m s]) s0 = readSlice m s0).
  { intros s0 Hs0. destruct (allocArray_old m (readSlice m s) s0 Hs0) as (_ & ? & ?).
    done. }
  split_and!; try done.
  intros i x m'' Hset. split.
  - by rewrite (setIndex_read _ _ _ _ _ Hval Hset), Hr.
  - intros s0 Hs0. destruct (Hold s0 Hs0) as [Hne <-].
    destruct (decide (len s0 = 0)) as [H0|H0]; [by rewrite !readSlice_empty|].
    apply (setIndex_read_ne (m ++ [readSlice m s]) (mkSlice (length m) 0 (len s))
             s0 i x m''); [exact (Hne H0)|exact Hset].
Qed.

End Copies.

(** C10. [Methods] and [Params] return a slice over a new array that shows
    what the stored slice shows: it shares no array with any slice that was
    there, and an assignment through it changes the copy only.  [Produces]
    returns the stored slice itself: an assignment through it is an
    assignment to the stored elements. *)
Theorem accessors_copy_or_alias v strs pars :
  validSlice strs (v_methods v) →
  validSlice pars (v_params v) →
  validSlice strs (v_produces v) →
  isDefensiveCopy strs (v_methods v)
    (VirtHandler_Methods v strs).1 (VirtHandler_Methods v strs).2
  ∧ isDefensiveCopy pars (v_params v)
      (VirtHandler_Params v pars).1 (VirtHandler_Params v pars).2
  ∧ VirtHandler_Produces v = v_produces v
  ∧ ∀ i x strs', setIndex strs (VirtHandler_Produces v) i x = Some strs' →
      readSlice strs' (v_produces v) = <[i := x]> (readSlice strs (v_produces v)).
Proof.
  intros Hm Hp Hpr. split_and!.
  - destruct (Methods_copies v strs Hm) as [-> ->]. by apply fresh_array_is_copy.
  - destruct (Params_copies v pars Hp) as [-> ->]. by apply fresh_array_is_copy.
  - done.
  - intros i x strs' Hset. by eapply setIndex_read.
Qed.

(** On [ex_virt]: an assignment through what [Methods] returned leaves the
    stored methods as they were, an assignment through what [Produces]
    returned is seen in the stored slice. *)
Lemma accessors_copy_or_alias_witness :
  validSlice ex_virt_strs (v_methods ex_virt)
  ∧ validSlice [ex_params] (v_params ex_virt)
  ∧ validSlice ex_virt_strs (v_produces ex_virt)
  ∧ isDefensiveCopy ex_virt_strs (v_methods ex_virt)
      (VirtHandler_Methods ex_virt ex_virt_strs).1 (VirtHandler_Methods ex_virt ex_virt_strs).2
  ∧ (∀ strs', setIndex (VirtHandler_Methods ex_virt ex_virt_strs).1
                       (VirtHandler_Methods ex_virt ex_virt_strs).2 0 "PUT" = Some strs' →
       readSlice strs' (v_methods ex_virt) = ["GET"; "POST"])
  ∧ (∀ strs', setIndex ex_virt_strs (VirtHandler_Produces ex_virt) 0 "text/xml" = Some strs' →
       readSlice strs' (v_produces ex_virt) = ["text/xml"]).
Proof.
  assert (H1 : validSlice ex_virt_strs (v_methods ex_virt)).
  { right. exists ["GET"; "POST"]. split; [reflexivity|]. simpl. lia. }
  assert (H2 : validSlice [ex_params] (v_params ex_virt)).
  { right. exists ex_params. split; [reflexivity|]. simpl. lia. }
  assert (H3 : validSlice ex_virt_strs (v_produces ex_virt)).
  { right. exists ["application/json"]. split; [reflexivity|]. simpl. lia. }
  destruct (accessors_copy_or_alias ex_virt ex_virt_strs [ex_params] H1 H2 H3)
    as (Hcopy & _ & _ & Halias).
  split_and!; try done.
  - intros strs' Hset. destruct Hcopy as (_ & _ & _ & Hw).
    destruct (Hw 0 "PUT" strs' Hset) as [_ Hold]. by rewrite (Hold _ H1).
  - intros strs' Hset. by rewrite (Halias 0 "text/xml" strs' Hset).
Defined.

(** ** Registration is get-or-create *)

Section GetOrCreate.
Variable G : string → string.

Lemma Reg_unfold a σ :
  inited a = false →
  let t := initTypes G (strArrays σ) a in
  let q := initParamsAndSuffix (paramArrays σ) t.2 in
  let a4 := setInited (initId t.1 q.2) in
  let σ1 := mkApiStore t.1 q.1 (objects σ ++ [a4]) (apiHandlerMap σ) (apiHandlers σ) in
  Reg G a σ = match apiHandlerMap σ !! id a4 with
              | Some h => (Some h, σ1)
              | None => (Some (length (objects σ)), setApiHandler (length (objects σ)) σ1)
              end.
Proof.
  intros Hi. cbv zeta. unfold Reg, newObject, init, init_lookup.
  assert (Hd : deref (mkApiStore (strArrays σ) (paramArrays σ) (objects σ ++ [a])
                        (apiHandlerMap σ) (apiHandlers σ)) (length (objects σ)) = a).
  { unfold deref. simpl. rewrite lookup_app_r by lia. by rewrite Nat.sub_diag. }
  assert (Hins : ∀ x, <[length (objects σ) := x]> (objects σ ++ [a]) = objects σ ++ [x]).
  { intros x. rewrite insert_app_r_alt by lia. by rewrite Nat.sub_diag. }
  rewrite Hd, Hi. cbn [strArrays paramArrays objects apiHandlerMap apiHandlers].
  destruct (initTypes G (strArrays σ) a) as [strs a1]. cbn [fst snd].
  destruct (initParamsAndSuffix (paramArrays σ) a1) as [pars a2]. cbn [fst snd].
  rewrite Hins. unfold getApiHandler. cbn [apiHandlerMap].
  by destruct (apiHandlerMap σ !! id (setInited (initId strs a2))).
Qed.

Lemma Reg_inited a σ :
  inited a = true →
  Reg G a σ = (apiHandlerMap σ !! id a,
               mkApiStore (strArrays σ) (paramArrays σ) (objects σ ++ [a])
                          (apiHandlerMap σ) (apiHandlers σ)).
Proof.
  intros Hi. unfold Reg, newObject, init, init_lookup.
  assert (Hd : deref (mkApiStore (strArrays σ) (paramArrays σ) (objects σ ++ [a])
                        (apiHandlerMap σ) (apiHandlers σ)) (length (objects σ)) = a).
  { unfold deref. simpl. rewrite lookup_app_r by lia. by rewrite Nat.sub_diag. }
  by rewrite Hd, Hi.
Qed.

Lemma computedId_setInited strs pars a :
  id (setInited (initId (initTypes G strs a).1
                        (initParamsAndSuffix pars (initTypes G strs a).2).2))
  = computedId G strs pars a.
Proof. done. Qed.

(** What one call does to the map and to the list. *)
Lemma Reg_get_or_create a σ :
  inited a = false →
  let i := computedId G (strArrays σ) (paramArrays σ) a in
  (Reg G a σ).1 = apiHandlerMap (Reg G a σ).2 !! i
  ∧ strArrays (Reg G a σ).2 = (initTypes G (strArrays σ) a).1
  ∧ paramArrays (Reg G a σ).2
    = (initParamsAndSuffix (paramArrays σ) (initTypes G (strArrays σ) a).2).1
  ∧ match apiHandlerMap σ !! i with
    | Some h =>
        (Reg G a σ).1 = Some h
        ∧ apiHandlerMap (Reg G a σ).2 = apiHandlerMap σ
        ∧ apiHandlers (Reg G a σ).2 = apiHandlers σ
    | None =>
        (Reg G a σ).1 = Some (length (objects σ))
        ∧ apiHandlerMap (Reg G a σ).2 = <[i := length (objects σ)]> (apiHandlerMap σ)
    end.
Proof.
  intros Hi. cbv zeta. rewrite (Reg_unfold a σ Hi). cbv zeta.
  rewrite computedId_setInited.
  set (i := computedId G (strArrays σ) (paramArrays σ) a).
  destruct (apiHandlerMap σ !! i) as [h|] eqn:E; cbn [fst snd].
  - done.
  - unfold setApiHandler. cbn [apiHandlerMap strArrays paramArrays objects].
    assert (Hd : ApiHandler_Id (deref
              (mkApiStore (initTypes G (strArrays σ) a).1
                 (initParamsAndSuffix (paramArrays σ) (initTypes G (strArrays σ) a).2).1
                 (objects σ ++ [setInited (initId (initTypes G (strArrays σ) a).1
                    (initParamsAndSuffix (paramArrays σ)
                       (initTypes G (strArrays σ) a).2).2)])
                 (apiHandlerMap σ) (apiHandlers σ)) (length (objects σ))) = i).
    { unfold deref. simpl. rewrite lookup_app_r by lia. by rewrite Nat.sub_diag. }
    rewrite Hd. by rewrite lookup_insert_eq.
Qed.

Lemma Reg_map_mono a σ i h :
  apiHandlerMap σ !! i = Some h → apiHandlerMap (Reg G a σ).2 !! i = Some h.
Proof.
  intros Hi. destruct (inited a) eqn:Hin.
  - by rewrite Reg_inited.
  - pose proof (Reg_get_or_create a σ Hin) as (_ & _ & _ & H). cbv zeta in H.
    destruct (apiHandlerMap σ !! computedId G (strArrays σ) (paramArrays σ) a) eqn:E.
    + destruct H as (_ & -> & _). done.
    + destruct H as (_ & ->). rewrite lookup_insert_ne; [done|]. congruence.
Qed.

Lemma registerAll_map_mono decls σ i h :
  apiHandlerMap σ !! i = Some h → apiHandlerMap (registerAll G decls σ) !! i = Some h.
Proof.
  revert σ. induction decls as [|a decls IH]; intros σ Hi; [done|].
  simpl. apply IH. by apply Reg_map_mono.
Qed.

End GetOrCreate.

(** ** The same declaration has the same identity *)

Lemma finalTypes_nonempty l : l ≠ [] → finalTypes l = normalizedTypes l.
Proof. by destruct l. Qed.

Lemma forceRequired_fields p :
  p_Name (forceRequired p) = p_Name p ∧ p_In (forceRequired p) = p_In p.
Proof. unfold forceRequired. by case_decide. Qed.

Lemma derivedSuffix_forceRequired w :
  derivedSuffix (forceRequired <$> w) = derivedSuffix w.
Proof.
  induction w as [|p w IH]; [done|].
  rewrite fmap_cons, !derivedSuffix_cons, IH.
  destruct (forceRequired_fields p) as [Hn Hi].
  destruct (decide (isPathParam p)) as [H|H].
  - rewrite decide_True by (unfold isPathParam; by rewrite Hi). by rewrite Hn.
  - by rewrite decide_False by (unfold isPathParam; by rewrite Hi).
Qed.

Section SameIdentity.
Variable G : string → string.

Lemma initTypes_keeps strs a :
  validSlice strs (Types a) →
  let r := initTypes G strs a in
  (Desc r.2, Params r.2, Handler r.2, id r.2, suffix r.2, inited r.2)
  = (Desc a, Params a, Handler a, id a, suffix a, inited a)
  ∧ validSlice r.1 (Types a)
  ∧ readSlice r.1 (Types r.2) = finalTypes (readSlice strs (Types a))
  ∧ finalTypes (readSlice r.1 (Types a)) = finalTypes (readSlice strs (Types a)).
Proof.
  intros Hv. cbv zeta. pose proof (readSlice_length _ _ Hv) as Hlen.
  destruct (decide (len (Types a) = 0)) as [H0|H0].
  - rewrite initTypes_empty by done. cbn [fst snd Desc Params Handler id suffix inited Types].
    destruct (allocArray_old strs allMethods _ Hv) as (Hv' & Hr & _). simpl in Hv', Hr.
    pose proof (allocArray_read strs allMethods) as Hr'. simpl in Hr'.
    rewrite Hr, Hr'. split_and!; try done.
    destruct (readSlice strs (Types a)); [done|]. simpl in Hlen. lia.
  - destruct (initTypes_nonempty_read G strs a Hv H0) as (_ & Hr & Hr' & _).
    assert (Hne : readSlice strs (Types a) ≠ []).
    { intros E. rewrite E in Hlen. simpl in Hlen. lia. }
    rewrite Hr, Hr', (finalTypes_nonempty _ Hne).
    rewrite initTypes_nonempty by done.
    cbn [fst snd Desc Params Handler id suffix inited Types].
    split_and!; try done.
    + apply validSlice_writeSlice.
      * apply validSlice_writeSlice; [done| |done].
        by rewrite sortStrings_length.
      * rewrite length_app, length_replicate.
        pose proof (dropRepeats_length None (sortStrings (readSlice strs (Types a)))).
        unfold normalizedTypes. rewrite sortStrings_length, Hlen in *. lia.
      * apply validSlice_writeSlice; [done| |done].
        by rewrite sortStrings_length.
    + set (declared := readSlice strs (Types a)) in *.
      assert (Hlast : ∀ x, x ∈ replicate (len (Types a) - length (normalizedTypes declared))
                                  (default "" (last (sortStrings declared)))
                           → x ∈ declared).
      { intros x [-> _]%elem_of_replicate.
        destruct (last (sortStrings declared)) as [z|] eqn:El.
        - simpl. apply sortStrings_elem. apply last_Some in El as [l' ->].
          apply elem_of_app. right. by left.
        - apply last_None in El. destruct Hne.
          apply Permutation_nil_r. by rewrite <- sortStrings_Permutation, El. }
      rewrite finalTypes_nonempty.
      * apply normalizedTypes_ext. intros x. rewrite elem_of_app, normalizedTypes_elem.
        split; [intros [?|?]; [done|by apply Hlast]|intros ?; by left].
      * intros E. apply app_eq_nil in E as [E _].
        assert (Hin : ∀ x, x ∈ normalizedTypes declared ↔ x ∈ declared)
          by (intros; apply normalizedTypes_elem).
        rewrite E in Hin. destruct declared as [|x ?]; [done|].
        by apply (elem_of_nil x), Hin; left.
Qed.

Lemma computedId_formula strs pars a :
  validSlice strs (Types a) → validSlice pars (Params a) →
  computedId G strs pars a
  = operationIdentity (Handler a) (derivedSuffix (readSlice pars (Params a))) (Desc a)
                      (finalTypes (readSlice strs (Types a))).
Proof.
  intros Hv Hp. unfold computedId. rewrite initId_id.
  destruct (initTypes_keeps strs a Hv) as (Hk & _ & Hr & _).
  injection Hk as HD HP HH _ _ _.
  rewrite <- HP in Hp.
  destruct (initParamsAndSuffix_fields pars _ Hp) as (Hs & _ & _ & Hk').
  injection Hk' as HD' HT' _ HH' _ _.
  by rewrite Hs, HD', HT', HH', Hr, HD, HH, HP.
Qed.

Lemma computedId_ext strs pars a strs' pars' a' :
  validSlice strs (Types a) → validSlice pars (Params a) →
  validSlice strs' (Types a') → validSlice pars' (Params a') →
  Desc a' = Desc a → Handler a' = Handler a →
  readSlice strs' (Types a') = readSlice strs (Types a) →
  readSlice pars' (Params a') = readSlice pars (Params a) →
  computedId G strs' pars' a' = computedId G strs pars a.
Proof.
  intros ?? ?? HD HH HT HP. rewrite !computedId_formula by done.
  by rewrite HD, HH, HT, HP.
Qed.

Lemma Reg_keeps_declaration a σ :
  inited a = false →
  validSlice (strArrays σ) (Types a) → validSlice (paramArrays σ) (Params a) →
  validSlice (strArrays (Reg G a σ).2) (Types a)
  ∧ validSlice (paramArrays (Reg G a σ).2) (Params a)
  ∧ computedId G (strArrays (Reg G a σ).2) (paramArrays (Reg G a σ).2) a
    = computedId G (strArrays σ) (paramArrays σ) a.
Proof.
  intros Hi Hv Hp.
  destruct (Reg_get_or_create G a σ Hi) as (_ & Hs & Hq & _). rewrite Hs, Hq.
  destruct (initTypes_keeps (strArrays σ) a Hv) as (Hk & Hv' & _ & Hf).
  injection Hk as _ HP _ _ _ _.
  assert (Hp' : validSlice (paramArrays σ) (Params (initTypes G (strArrays σ) a).2))
    by (by rewrite HP).
  destruct (initParamsAndSuffix_fields _ _ Hp') as (_ & HP' & Hr & _).
  rewrite HP', HP in Hr.
  assert (Hv2 : validSlice (initParamsAndSuffix (paramArrays σ)
                  (initTypes G (strArrays σ) a).2).1 (Params a)).
  { unfold initParamsAndSuffix. rewrite initParamsAndSuffix_loop_spec. cbn [fst].
    rewrite HP. apply validSlice_writeSlice; [done| |done].
    by rewrite length_fmap, readSlice_length. }
  split_and!; try done.
  rewrite !computedId_formula by done.
  by rewrite Hf, Hr, derivedSuffix_forceRequired.
Qed.

Lemma regRepeat_known a n σ h :
  inited a = false →
  validSlice (strArrays σ) (Types a) → validSlice (paramArrays σ) (Params a) →
  apiHandlerMap σ !! computedId G (strArrays σ) (paramArrays σ) a = Some h →
  Forall (λ r, r = Some h) (regRepeat G a n σ).1
  ∧ apiHandlerMap (regRepeat G a n σ).2 = apiHandlerMap σ
  ∧ apiHandlers (regRepeat G a n σ).2 = apiHandlers σ.
Proof.
  intros Hi. revert σ. induction n as [|n IH]; intros σ Hv Hp Hh; [done|].
  simpl.
  destruct (Reg_get_or_create G a σ Hi) as (_ & _ & _ & H). cbv zeta in H.
  rewrite Hh in H. destruct H as (Hr & Hm & Hl).
  destruct (Reg_keeps_declaration a σ Hi Hv Hp) as (Hv' & Hp' & Hid).
  destruct (Reg G a σ) as [r σ1]. cbn [fst snd] in *.
  specialize (IH σ1 Hv' Hp'). rewrite Hid, Hm in IH. specialize (IH Hh).
  destruct (regRepeat G a n σ1) as [hs σ2]. cbn [fst snd] in *.
  destruct IH as (IH1 & IH2 & IH3). split_and!.
  - by constructor.
  - by rewrite IH2.
  - by rewrite IH3.
Qed.

End SameIdentity.

(** ** [NewVirtHandler] is get-or-create *)

Lemma NewVirtHandler_get_or_create hw prefix ms d pr pa τ :
  let j := prefixIdentity hw (creatPrefix prefix).1.1 (readSlice (v_strArrays τ) ms) in
  let r := NewVirtHandler hw prefix ms d pr pa τ in
  r.1 = virtHandlerMap r.2 !! j
  ∧ v_strArrays r.2 = v_strArrays τ
  ∧ match virtHandlerMap τ !! j with
    | Some vh =>
        r.1 = Some vh ∧ virtHandlerMap r.2 = virtHandlerMap τ
        ∧ handlerMap r.2 = handlerMap τ
    | None =>
        r.1 = Some (length (v_objects τ))
        ∧ virtHandlerMap r.2 = <[j := length (v_objects τ)]> (virtHandlerMap τ)
        ∧ handlerMap r.2 = <[j := hw]> (handlerMap τ)
    end.
Proof.
  cbv zeta. unfold NewVirtHandler.
  destruct (creatPrefix prefix) as [[cp pp] ppm]. cbn [fst snd].
  rewrite handleWareUri_id.
  set (j := prefixIdentity hw cp (readSlice (v_strArrays τ) ms)).
  unfold hasVirtHandler. cbn [virtHandlerMap].
  destruct (virtHandlerMap τ !! j) as [vh|] eqn:E.
  - rewrite bool_decide_eq_true_2 by (by eexists). cbn [fst snd virtHandlerMap]. by rewrite E.
  - rewrite bool_decide_eq_false_2 by (by intros [? ?]).
    cbn [fst snd virtHandlerMap handlerMap setHandlerMap setVirtHandler v_id v_strArrays].
    by rewrite lookup_insert_eq.
Qed.

Lemma size_insert_le {V} (m : gmap string V) i x : size (<[i := x]> m) ≤ S (size m).
Proof.
  destruct (m !! i) eqn:E.
  - rewrite map_size_insert_Some by done. lia.
  - by rewrite map_size_insert_None.
Qed.

(** C1. A call of [Reg] on a declaration returns the descriptor stored under
    the identity computed from the declaration: the one that was there, or,
    when there was none, the one it has just stored; the map gets at most one
    key.  Further calls on the same declaration return that descriptor and
    leave the map and the list as they are; so does, after any run of other
    registrations, a call on a declaration with the same description,
    callback, types and parameters.  [NewVirtHandler] does the same under
    the identity computed from callback, cleaned prefix and methods. *)
Theorem registration_idempotent (G : string → string) (σ : ApiStore) (a : ApiHandler) :
  inited a = false →
  validSlice (strArrays σ) (Types a) →
  validSlice (paramArrays σ) (Params a) →
  let i := computedId G (strArrays σ) (paramArrays σ) a in
  let first := Reg G a σ in
  is_Some first.1
  ∧ first.1 = apiHandlerMap first.2 !! i
  ∧ (∀ h, apiHandlerMap σ !! i = Some h →
       first.1 = Some h ∧ apiHandlerMap first.2 = apiHandlerMap σ
       ∧ apiHandlers first.2 = apiHandlers σ)
  ∧ size (apiHandlerMap first.2) ≤ S (size (apiHandlerMap σ))
  ∧ (∀ n,
       Forall (λ r, r = first.1) (regRepeat G a n first.2).1
       ∧ apiHandlerMap (regRepeat G a n first.2).2 = apiHandlerMap first.2
       ∧ apiHandlers (regRepeat G a n first.2).2 = apiHandlers first.2)
  ∧ (∀ decls a',
       let σ' := registerAll G decls first.2 in
       inited a' = false →
       validSlice (strArrays σ') (Types a') → validSlice (paramArrays σ') (Params a') →
       Desc a' = Desc a → Handler a' = Handler a →
       readSlice (strArrays σ') (Types a') = readSlice (strArrays σ) (Types a) →
       readSlice (paramArrays σ') (Params a') = readSlice (paramArrays σ) (Params a) →
       (Reg G a' σ').1 = first.1
       ∧ apiHandlerMap (Reg G a' σ').2 = apiHandlerMap σ'
       ∧ apiHandlers (Reg G a' σ').2 = apiHandlers σ')
  ∧ (∀ hw prefix ms d pr pa (τ : VirtStore),
       let j := prefixIdentity hw (creatPrefix prefix).1.1 (readSlice (v_strArrays τ) ms) in
       let vfirst := NewVirtHandler hw prefix ms d pr pa τ in
       is_Some vfirst.1
       ∧ vfirst.1 = virtHandlerMap vfirst.2 !! j
       ∧ (∀ vh, virtHandlerMap τ !! j = Some vh →
            vfirst.1 = Some vh ∧ virtHandlerMap vfirst.2 = virtHandlerMap τ)
       ∧ size (virtHandlerMap vfirst.2) ≤ S (size (virtHandlerMap τ))
       ∧ ∀ τ' ms' d' pr' pa',
           virtHandlerMap τ' !! j = vfirst.1 →
           readSlice (v_strArrays τ') ms' = readSlice (v_strArrays τ) ms →
           let again := NewVirtHandler hw prefix ms' d' pr' pa' τ' in
           again.1 = vfirst.1
           ∧ virtHandlerMap again.2 = virtHandlerMap τ'
           ∧ handlerMap again.2 = handlerMap τ').
Proof.
  intros Hi Hv Hp. cbv zeta.
  set (i := computedId G (strArrays σ) (paramArrays σ) a).
  destruct (Reg_get_or_create G a σ Hi) as (Hret & _ & _ & Hcase).
  cbv zeta in Hret, Hcase. fold i in Hret, Hcase.
  destruct (Reg_keeps_declaration G a σ Hi Hv Hp) as (Hv1 & Hp1 & Hid). fold i in Hid.
  assert (Hsome : is_Some (Reg G a σ).1).
  { destruct (apiHandlerMap σ !! i); destruct Hcase as [-> _]; by eexists. }
  destruct Hsome as [h1 Hh1].
  assert (Hstored : apiHandlerMap (Reg G a σ).2 !! i = Some h1) by (by rewrite <- Hret).
  split_and!.
  - by eexists.
  - done.
  - intros h Hh. by rewrite Hh in Hcase.
  - destruct (apiHandlerMap σ !! i); [destruct Hcase as (_ & -> & _); lia|].
    destruct Hcase as (_ & ->). apply size_insert_le.
  - intros n. rewrite Hh1. apply regRepeat_known; try done. by rewrite Hid.
  - intros decls a'. set (σ' := registerAll G decls (Reg G a σ).2).
    intros Hi' Hv' Hp' HD HH HT HP.
    assert (Hid' : computedId G (strArrays σ') (paramArrays σ') a' = i)
      by (by apply computedId_ext).
    destruct (Reg_get_or_create G a' σ' Hi') as (_ & _ & _ & Hcase').
    cbv zeta in Hcase'. rewrite Hid' in Hcase'.
    pose proof (registerAll_map_mono G decls _ i h1 Hstored) as Hkept.
    fold σ' in Hkept. rewrite Hkept in Hcase'.
    by rewrite Hh1.
  - intros hw prefix ms d pr pa τ.
    set (j := prefixIdentity hw (creatPrefix prefix).1.1 (readSlice (v_strArrays τ) ms)).
    set (vfirst := NewVirtHandler hw prefix ms d pr pa τ).
    destruct (NewVirtHandler_get_or_create hw prefix ms d pr pa τ) as (Hr & Hs & Hc).
    cbv zeta in Hr, Hs, Hc. fold j in Hr, Hc. fold vfirst in Hr, Hs, Hc.
    split_and!.
    + destruct (virtHandlerMap τ !! j); destruct Hc as [-> _]; by eexists.
    + done.
    + intros vh Hvh. rewrite Hvh in Hc. by destruct Hc as (? & ? & _).
    + destruct (virtHandlerMap τ !! j); [destruct Hc as (_ & -> & _); lia|].
      destruct Hc as (_ & -> & _). apply size_insert_le.
    + intros τ' ms' d' pr' pa' Hj Hms.
      set (again := NewVirtHandler hw prefix ms' d' pr' pa' τ').
      destruct (NewVirtHandler_get_or_create hw prefix ms' d' pr' pa' τ') as (_ & _ & Hc').
      cbv zeta in Hc'. rewrite Hms in Hc'. fold j in Hc'. fold again in Hc'.
      assert (Hsome : is_Some vfirst.1).
      { destruct (virtHandlerMap τ !! j); destruct Hc as [-> _]; by eexists. }
      destruct Hsome as [vh Hvh]. rewrite Hvh in Hj. rewrite Hj in Hc'.
      by rewrite Hvh.
Qed.

(** The declaration of the specification, registered in [ex_store] and then
    three times more: the four calls return the same descriptor. *)
Lemma registration_idempotent_witness :
  inited ex_declaration = false
  ∧ validSlice (strArrays ex_store) (Types ex_declaration)
  ∧ validSlice (paramArrays ex_store) (Params ex_declaration)
  ∧ (Reg (λ t, t) ex_declaration ex_store).1 = Some 0
  ∧ Forall (λ r, r = (Reg (λ t, t) ex_declaration ex_store).1)
           (regRepeat (λ t, t) ex_declaration 3 (Reg (λ t, t) ex_declaration ex_store).2).1
  ∧ size (apiHandlerMap (Reg (λ t, t) ex_declaration ex_store).2) ≤ 1.
Proof.
  assert (H1 : validSlice (strArrays ex_store) (Types ex_declaration)).
  { right. exists ex_types. split; [reflexivity|]. simpl. lia. }
  assert (H2 : validSlice (paramArrays ex_store) (Params ex_declaration)).
  { right. exists ex_params. split; [reflexivity|]. simpl. lia. }
  destruct (registration_idempotent (λ t, t) ex_store ex_declaration eq_refl H1 H2)
    as (_ & _ & _ & Hsize & Hrep & _).
  split_and!; [reflexivity|exact H1|exact H2|reflexivity|exact (proj1 (Hrep 3))|exact Hsize].
Defined.

(** * Part III: further properties of the code *)

(** ** What sequential registrations keep *)

Lemma sorted_NoDup_strict l :
  StronglySorted String.le l → NoDup l → StronglySorted str_lt l.
Proof.
  induction 1 as [|x l Hs IH Hx]; intros Hnd; [constructor|].
  apply NoDup_cons in Hnd as [Hnot Hnd]. constructor; [by apply IH|].
  apply Forall_forall. intros y Hy. apply str_lt_iff. split.
  - by eapply (proj1 (Forall_forall _ _) Hx).
  - by intros ->.
Qed.

Lemma NilApiHandler_unfold desc σ :
  let i := "[" +:+ "" +:+ "][" +:+ desc +:+ "]" in
  let a := mkApiHandler desc nilSlice [] nilSlice (Func "") i "" true in
  let σ1 := mkApiStore (strArrays σ) (paramArrays σ) (objects σ ++ [a])
                       (apiHandlerMap σ) (apiHandlers σ) in
  NilApiHandler desc σ
  = match apiHandlerMap σ !! i with
    | Some h => (Some h, σ1)
    | None =>
        (Some (length (objects σ)),
         mkApiStore (strArrays σ) (paramArrays σ) (objects σ ++ [a])
                    (<[i := length (objects σ)]> (apiHandlerMap σ)) (apiHandlers σ))
    end.
Proof.
  cbv zeta. unfold NilApiHandler, newObject, getApiHandler, initId, setInited.
  cbn [Desc Types methods Params Handler id suffix inited apiHandlerMap strArrays
       paramArrays objects apiHandlers].
  rewrite (readSlice_empty (strArrays σ) nilSlice eq_refl). cbn [fold_left].
  by destruct (apiHandlerMap σ !! _) eqn:E.
Qed.

Section Consistency.
Variable G : string → string.

Lemma deref_app_old σ objs' p strs pars m l :
  p < length (objects σ) →
  deref (mkApiStore strs pars (objects σ ++ objs') m l) p = deref σ p.
Proof. intros Hp. unfold deref. simpl. by rewrite lookup_app_l. Qed.

Lemma deref_app_new σ a strs pars m l :
  deref (mkApiStore strs pars (objects σ ++ [a]) m l) (length (objects σ)) = a.
Proof. unfold deref. simpl. rewrite lookup_app_r by lia. by rewrite Nat.sub_diag. Qed.

(** A store that differs from a consistent one by new objects at the end. *)
Lemma consistent_more_objects σ strs pars objs' :
  registryConsistent σ →
  registryConsistent (mkApiStore strs pars (objects σ ++ objs')
                                 (apiHandlerMap σ) (apiHandlers σ)).
Proof.
  intros (HK & HL & HS).
  assert (Hold : ∀ p, p ∈ apiHandlers σ → p < length (objects σ)).
  { intros p Hp. by destruct (HK _ _ (HL p Hp)). }
  split_and!.
  - intros i p Hi. simpl in Hi. destruct (HK i p Hi) as (Hp & Hid & Hin).
    rewrite deref_app_old by done. simpl. rewrite length_app. split_and!; [lia|done..].
  - intros p Hp. simpl in Hp. simpl. rewrite deref_app_old by auto. by apply HL.
  - rewrite (enumerateIds_ext σ); [done|done|].
    intros q Hq. simpl. rewrite lookup_app_l; [done|auto].
Qed.

Lemma consistent_insert_map σ i p :
  registryConsistent σ →
  apiHandlerMap σ !! i = None →
  p < length (objects σ) → id (deref σ p) = i → inited (deref σ p) = true →
  registryConsistent (mkApiStore (strArrays σ) (paramArrays σ) (objects σ)
                                 (<[i := p]> (apiHandlerMap σ)) (apiHandlers σ)).
Proof.
  intros (HK & HL & HS) Hnone Hp Hid Hin. split_and!.
  - intros j q Hj. simpl in Hj. unfold deref. simpl.
    destruct (decide (i = j)) as [->|Hne].
    + rewrite lookup_insert_eq in Hj. by simplify_eq.
    + rewrite lookup_insert_ne in Hj by done. by apply HK.
  - intros q Hq. simpl in Hq. unfold deref. simpl.
    pose proof (HL q Hq) as Hq'. rewrite lookup_insert_ne; [done|].
    intros Heq. unfold deref in Hq'. rewrite <- Heq in Hq'. congruence.
  - done.
Qed.

Lemma setApiHandler_consistent σ p :
  registryConsistent σ →
  apiHandlerMap σ !! id (deref σ p) = None →
  p < length (objects σ) → inited (deref σ p) = true →
  registryConsistent (setApiHandler p σ).
Proof.
  intros (HK & HL & HS) Hnone Hp Hin.
  destruct (setApiHandler_enumerate p σ (str_lt_sorted_le _ HS))
    as (Hsorted & before & after & Hl & Hl' & _).
  assert (Hfresh : ∀ q, q ∈ apiHandlers σ → id (deref σ q) ≠ id (deref σ p)).
  { intros q Hq Heq. pose proof (HL q Hq) as Hq'. congruence. }
  split_and!.
  - intros j q Hj. unfold setApiHandler, ApiHandler_Id in Hj. simpl in Hj.
    change (deref (setApiHandler p σ) q) with (deref σ q).
    change (objects (setApiHandler p σ)) with (objects σ).
    destruct (decide (id (deref σ p) = j)) as [<-|Hne].
    + rewrite lookup_insert_eq in Hj. by simplify_eq.
    + rewrite lookup_insert_ne in Hj by done. by apply HK.
  - intros q Hq. rewrite Hl' in Hq.
    change (deref (setApiHandler p σ) q) with (deref σ q).
    unfold setApiHandler, ApiHandler_Id. cbn [apiHandlerMap].
    assert (Hcase : q = p ∨ q ∈ apiHandlers σ).
    { rewrite Hl. apply elem_of_app in Hq as [?|[->|?]%elem_of_cons];
        [right|by left|right]; apply elem_of_app; auto. }
    destruct Hcase as [->|Hq'].
    + by rewrite lookup_insert_eq.
    + rewrite lookup_insert_ne; [by apply HL|]. intros Heq. by eapply Hfresh.
  - apply sorted_NoDup_strict; [done|].
    unfold enumerateIds. rewrite Hl'.
    change (deref (setApiHandler p σ)) with (deref σ).
    pose proof (str_lt_sorted_NoDup _ HS) as Hnd.
    unfold enumerateIds in Hnd. rewrite Hl in Hnd.
    rewrite fmap_app in Hnd. rewrite fmap_app, fmap_cons.
    apply NoDup_app in Hnd as (Hb & Hcross & Ha).
    apply NoDup_app. split_and!; [done| |].
    + intros x Hx [->|Hx']%elem_of_cons; [|by eapply Hcross].
      apply list_elem_of_fmap in Hx as (q & Hq1 & Hq2).
      eapply (Hfresh q); [|done]. rewrite Hl. apply elem_of_app. by left.
    + apply NoDup_cons. split; [|done].
      intros (q & Hq1 & Hq2)%list_elem_of_fmap.
      eapply (Hfresh q); [|done]. rewrite Hl. apply elem_of_app. by right.
Qed.

Lemma Reg_consistent a σ : registryConsistent σ → registryConsistent (Reg G a σ).2.
Proof.
  intros Hc. destruct (inited a) eqn:Hi.
  - rewrite Reg_inited by done. by apply consistent_more_objects.
  - rewrite (Reg_unfold G a σ Hi). cbv zeta.
    set (a4 := setInited _). set (σ1 := mkApiStore _ _ (objects σ ++ [a4]) _ _).
    assert (Hc1 : registryConsistent σ1) by (by apply consistent_more_objects).
    destruct (apiHandlerMap σ !! id a4) as [h|] eqn:E; [done|].
    cbn [snd]. apply setApiHandler_consistent; [done| | |].
    + unfold σ1. by rewrite deref_app_new.
    + unfold σ1. simpl. rewrite length_app. simpl. lia.
    + unfold σ1. by rewrite deref_app_new.
Qed.

Lemma NilApiHandler_consistent desc σ :
  registryConsistent σ → registryConsistent (NilApiHandler desc σ).2.
Proof.
  intros Hc. rewrite NilApiHandler_unfold. cbv zeta.
  set (i := "[" +:+ "" +:+ "][" +:+ desc +:+ "]").
  set (a := mkApiHandler desc nilSlice [] nilSlice (Func "") i "" true).
  pose proof (consistent_more_objects σ (strArrays σ) (paramArrays σ) [a] Hc) as Hc1.
  destruct (apiHandlerMap σ !! i) as [h|] eqn:E; [done|]. cbn [snd].
  apply (consistent_insert_map _ i (length (objects σ))) in Hc1; [done|done|..].
  - simpl. rewrite length_app. simpl. lia.
  - by rewrite deref_app_new.
  - by rewrite deref_app_new.
Qed.

Lemma register_consistent c σ :
  registryConsistent σ → registryConsistent (register G c σ).2.
Proof. destruct c; [apply Reg_consistent|apply NilApiHandler_consistent]. Qed.

Lemma registrations_consistent cs σ :
  registryConsistent σ → registryConsistent (registrations G cs σ).
Proof.
  revert σ. induction cs as [|c cs IH]; intros σ Hc; [done|].
  simpl. by apply IH, register_consistent.
Qed.


End Consistency.

Section Runs.
Variable G : string → string.





End Runs.



Lemma ex_registered_consistent : registryConsistent ex_registered.
Proof.
  unfold ex_registered. apply registrations_consistent.
  split_and!; [by intros i p ?|by intros p ?%elem_of_nil|constructor].
Qed.


(** X3. Registering again a descriptor that the map holds, be it by [init]
    on the stored pointer or by [Reg] on a copy of it, returns that
    descriptor and changes neither the map nor the list: the descriptor is
    not initialised a second time. *)
Theorem registered_descriptor_is_not_reinitialised (G : string → string) σ i p :
  registryConsistent σ →
  apiHandlerMap σ !! i = Some p →
  init G p σ = (Some p, σ)
  ∧ (Reg G (deref σ p) σ).1 = Some p
  ∧ apiHandlerMap (Reg G (deref σ p) σ).2 = apiHandlerMap σ
  ∧ apiHandlers (Reg G (deref σ p) σ).2 = apiHandlers σ
  ∧ strArrays (Reg G (deref σ p) σ).2 = strArrays σ
  ∧ paramArrays (Reg G (deref σ p) σ).2 = paramArrays σ.
Proof.
  intros (HK & _) Hi. destruct (HK i p Hi) as (Hp & Hid & Hin).
  split.
  - unfold init, init_lookup. rewrite Hin, Hid. unfold getApiHandler. by rewrite Hi.
  - rewrite Reg_inited by done. rewrite Hid. by rewrite Hi.
Qed.

Lemma registered_descriptor_is_not_reinitialised_witness :
  registryConsistent ex_registered
  ∧ apiHandlerMap ex_registered !! "main.user[/:id][user][GET][POST][get]" = Some 0
  ∧ init (λ t, t) 0 ex_registered = (Some 0, ex_registered).
Proof.
  assert (H : apiHandlerMap ex_registered !! "main.user[/:id][user][GET][POST][get]"
              = Some 0) by reflexivity.
  destruct (registered_descriptor_is_not_reinitialised (λ t, t) ex_registered _ 0
              ex_registered_consistent H) as (H1 & _).
  split_and!; [exact ex_registered_consistent|exact H|exact H1].
Defined.

(** ** [NilApiHandler] *)

Lemma nil_identity desc :
  operationIdentity (Func "") "" desc [] = "[" +:+ "" +:+ "][" +:+ desc +:+ "]".
Proof.
  unfold operationIdentity, symbolicIdentity. rewrite !inBrackets_cons.
  unfold inBrackets, strings_Join. reflexivity.
Qed.

(** X4. [NilApiHandler] is get-or-create under the identity [[][desc]]: it
    returns the descriptor the map holds under it, and stores a new one, with
    no types, no methods and no parameters, only when there is none.  It
    leaves every other key, the arrays and the ordered list as they are, so
    its descriptors are never enumerated; a second call returns what the
    first returned. *)
Theorem NilApiHandler_get_or_create desc σ :
  let i := operationIdentity (Func "") "" desc [] in
  let r := NilApiHandler desc σ in
  is_Some r.1
  ∧ r.1 = apiHandlerMap r.2 !! i
  ∧ apiHandlers r.2 = apiHandlers σ
  ∧ strArrays r.2 = strArrays σ
  ∧ paramArrays r.2 = paramArrays σ
  ∧ (∀ j, j ≠ i → apiHandlerMap r.2 !! j = apiHandlerMap σ !! j)
  ∧ (∀ h, apiHandlerMap σ !! i = Some h →
       r.1 = Some h ∧ apiHandlerMap r.2 = apiHandlerMap σ)
  ∧ (apiHandlerMap σ !! i = None →
       r.1 = Some (length (objects σ))
       ∧ deref r.2 (length (objects σ))
         = mkApiHandler desc nilSlice [] nilSlice (Func "") i "" true)
  ∧ (NilApiHandler desc r.2).1 = r.1
  ∧ apiHandlerMap (NilApiHandler desc r.2).2 = apiHandlerMap r.2.
Proof.
  cbv zeta. rewrite nil_identity.
  set (i := "[" +:+ "" +:+ "][" +:+ desc +:+ "]").
  assert (Hu := NilApiHandler_unfold desc σ). cbv zeta in Hu. fold i in Hu.
  assert (Hu2 := NilApiHandler_unfold desc (NilApiHandler desc σ).2).
  cbv zeta in Hu2. fold i in Hu2.
  destruct (apiHandlerMap σ !! i) as [h|] eqn:E.
  - rewrite Hu in Hu2 |- *. cbn [fst snd apiHandlerMap apiHandlers strArrays paramArrays] in *.
    rewrite E in Hu2. rewrite Hu2. cbn [fst snd apiHandlerMap].
    split_and!; try done; by eexists.
  - rewrite Hu in Hu2 |- *. cbn [fst snd apiHandlerMap apiHandlers strArrays paramArrays] in *.
    rewrite lookup_insert_eq in Hu2. rewrite Hu2. cbn [fst snd apiHandlerMap].
    split_and!; try done.
    + by rewrite lookup_insert_eq.
    + intros j Hj. by rewrite lookup_insert_ne.
    + intros _. split; [done|]. by rewrite deref_app_new.
Qed.

(** ** What [Reg] stores *)

Lemma finalTypes_ext l l' : (∀ x, x ∈ l' ↔ x ∈ l) → finalTypes l' = finalTypes l.
Proof.
  intros H. destruct l as [|x l], l' as [|x' l']; [done| | |].
  - exfalso. eapply elem_of_nil, (proj1 (H x')). by left.
  - exfalso. eapply elem_of_nil, (proj2 (H x)). by left.
  - unfold finalTypes. by apply normalizedTypes_ext.
Qed.

Lemma derivedSuffix_names w w' :
  p_Name <$> filter isPathParam w' = p_Name <$> filter isPathParam w →
  derivedSuffix w' = derivedSuffix w.
Proof.
  intros H. unfold derivedSuffix.
  change (λ p, "/:" +:+ p_Name p) with ((λ n, "/:" +:+ n) ∘ p_Name).
  by rewrite !list_fmap_compose, H.
Qed.

Lemma setApiHandler_listed vh σ : vh ∈ apiHandlers (setApiHandler vh σ).
Proof.
  unfold setApiHandler. cbn [apiHandlers].
  destruct (list_find _ _) as [[i x]|]; rewrite !elem_of_app.
  - right. left. by left.
  - right. by left.
Qed.

Section Stored.
Variable G : string → string.

Lemma initTypes_methods strs a :
  validSlice strs (Types a) →
  methods (initTypes G strs a).2
  = methods a ++ match readSlice strs (Types a) with
                 | [] => []
                 | _ => G <$> finalTypes (readSlice strs (Types a))
                 end.
Proof.
  intros Hv. pose proof (readSlice_length _ _ Hv) as Hlen.
  destruct (decide (len (Types a) = 0)) as [H0|H0].
  - rewrite initTypes_empty by done. cbn [snd methods].
    rewrite readSlice_empty by done. by rewrite app_nil_r.
  - destruct (initTypes_nonempty_read G strs a Hv H0) as (_ & _ & _ & Hm & _).
    rewrite Hm. destruct (readSlice strs (Types a)) eqn:E; [simpl in Hlen; lia|].
    done.
Qed.

(** X5. When the identity of a declaration is not in the map, [Reg] stores
    its copy of the declaration and lists it.  The stored descriptor is
    initialised; it has the description and the callback of the declaration,
    the identity built from them, the suffix derived from the parameters and
    the final types; its parameters are the declared ones with every path
    parameter required.  Its methods are one per final type when types are
    declared; when none is declared, the types are the standard set and no
    method is resolved. *)
Theorem Reg_stores_initialised a σ :
  inited a = false →
  validSlice (strArrays σ) (Types a) →
  validSlice (paramArrays σ) (Params a) →
  apiHandlerMap σ !! computedId G (strArrays σ) (paramArrays σ) a = None →
  let r := Reg G a σ in
  let p := length (objects σ) in
  let d := deref r.2 p in
  let declared := readSlice (strArrays σ) (Types a) in
  let params := readSlice (paramArrays σ) (Params a) in
  r.1 = Some p
  ∧ p ∈ apiHandlers r.2
  ∧ apiHandlerMap r.2 !! id d = Some p
  ∧ inited d = true
  ∧ Desc d = Desc a
  ∧ Handler d = Handler a
  ∧ id d = operationIdentity (Handler a) (derivedSuffix params) (Desc a) (finalTypes declared)
  ∧ suffix d = derivedSuffix params
  ∧ readSlice (strArrays r.2) (Types d) = finalTypes declared
  ∧ readSlice (paramArrays r.2) (Params d) = forceRequired <$> params
  ∧ methods d = methods a ++ match declared with
                             | [] => []
                             | _ => G <$> finalTypes declared
                             end.
Proof.
  intros Hi Hv Hp Hnone. cbv zeta.
  pose proof (computedId_formula G _ _ a Hv Hp) as Hid.
  rewrite (Reg_unfold G a σ Hi). cbv zeta. rewrite computedId_setInited, Hnone.
  cbn [fst snd].
  set (t := initTypes G (strArrays σ) a) in *.
  set (q := initParamsAndSuffix (paramArrays σ) t.2) in *.
  set (a4 := setInited (initId t.1 q.2)).
  set (σ1 := mkApiStore t.1 q.1 (objects σ ++ [a4]) _ _).
  assert (Hd : deref (setApiHandler (length (objects σ)) σ1) (length (objects σ)) = a4).
  { change (deref (setApiHandler (length (objects σ)) σ1)) with (deref σ1).
    unfold σ1. by rewrite deref_app_new. }
  rewrite Hd.
  change (strArrays (setApiHandler (length (objects σ)) σ1)) with t.1.
  change (paramArrays (setApiHandler (length (objects σ)) σ1)) with q.1.
  destruct (initTypes_keeps G (strArrays σ) a Hv) as (Hk & _ & Hr & _). fold t in Hk, Hr.
  injection Hk as HD HP HH _ _ _.
  assert (Hp' : validSlice (paramArrays σ) (Params t.2)) by (by rewrite HP).
  destruct (initParamsAndSuffix_fields _ _ Hp') as (Hs & HP' & Hrp & Hk').
  fold q in Hs, HP', Hrp, Hk'. rewrite HP in Hs, Hrp.
  injection Hk' as HD' HT' HM' HH' _ _.
  assert (Hid4 : id a4 = computedId G (strArrays σ) (paramArrays σ) a) by done.
  split_and!.
  - done.
  - apply setApiHandler_listed.
  - unfold setApiHandler, ApiHandler_Id. cbn [apiHandlerMap].
    change (deref σ1 (length (objects σ))) with
      (deref (setApiHandler (length (objects σ)) σ1) (length (objects σ))).
    rewrite Hd. by rewrite lookup_insert_eq.
  - done.
  - unfold a4. cbn [setInited initId Desc]. by rewrite HD', HD.
  - unfold a4. cbn [setInited initId Handler]. by rewrite HH', HH.
  - by rewrite Hid4, Hid.
  - unfold a4. cbn [setInited initId suffix]. done.
  - unfold a4. cbn [setInited initId Types]. by rewrite HT', Hr.
  - unfold a4. cbn [setInited initId Params]. done.
  - unfold a4. cbn [setInited initId methods]. rewrite HM'.
    unfold t. by apply initTypes_methods.
Qed.

(** X6. The identity of a declaration does not depend on the order of its
    types, on how often a type is written, or on its parameters outside the
    path: a declaration with the callback, the description, the set of types
    and the names of the path parameters of one that is in the map is the
    same operation.  [Reg] returns the stored descriptor for it and stores
    nothing, so what the later declaration says beyond that is dropped. *)
Theorem Reg_same_operation strs pars a σ a' h :
  validSlice strs (Types a) → validSlice pars (Params a) →
  apiHandlerMap σ !! computedId G strs pars a = Some h →
  inited a' = false →
  validSlice (strArrays σ) (Types a') → validSlice (paramArrays σ) (Params a') →
  Handler a' = Handler a → Desc a' = Desc a →
  (∀ x, x ∈ readSlice (strArrays σ) (Types a') ↔ x ∈ readSlice strs (Types a)) →
  p_Name <$> filter isPathParam (readSlice (paramArrays σ) (Params a'))
    = p_Name <$> filter isPathParam (readSlice pars (Params a)) →
  computedId G (strArrays σ) (paramArrays σ) a' = computedId G strs pars a
  ∧ (Reg G a' σ).1 = Some h
  ∧ apiHandlerMap (Reg G a' σ).2 = apiHandlerMap σ
  ∧ apiHandlers (Reg G a' σ).2 = apiHandlers σ.
Proof.
  intros Hv Hp Hh Hi' Hv' Hp' HH HD Hty Hpn.
  assert (Hid : computedId G (strArrays σ) (paramArrays σ) a' = computedId G strs pars a).
  { rewrite !computedId_formula by done.
    by rewrite HH, HD, (finalTypes_ext _ _ Hty), (derivedSuffix_names _ _ Hpn). }
  split; [done|].
  destruct (Reg_get_or_create G a' σ Hi') as (_ & _ & _ & Hcase).
  cbv zeta in Hcase. by rewrite Hid, Hh in Hcase.
Qed.

End Stored.

(** A declaration without types, registered in the empty registry: the
    stored descriptor has the nine standard types and no method. *)
Lemma Reg_stores_initialised_witness :
  inited ex_ping = false
  ∧ validSlice (strArrays emptyApiStore) (Types ex_ping)
  ∧ validSlice (paramArrays emptyApiStore) (Params ex_ping)
  ∧ apiHandlerMap emptyApiStore
      !! computedId (λ t, t) (strArrays emptyApiStore) (paramArrays emptyApiStore) ex_ping
    = None
  ∧ (Reg (λ t, t) ex_ping emptyApiStore).1 = Some 0
  ∧ readSlice (strArrays (Reg (λ t, t) ex_ping emptyApiStore).2)
              (Types (deref (Reg (λ t, t) ex_ping emptyApiStore).2 0)) = allMethods
  ∧ methods (deref (Reg (λ t, t) ex_ping emptyApiStore).2 0) = [].
Proof.
  assert (H1 : validSlice (strArrays emptyApiStore) (Types ex_ping)) by (by left).
  assert (H2 : validSlice (paramArrays emptyApiStore) (Params ex_ping)) by (by left).
  assert (H3 : apiHandlerMap emptyApiStore
                 !! computedId (λ t, t) (strArrays emptyApiStore)
                      (paramArrays emptyApiStore) ex_ping = None) by reflexivity.
  destruct (Reg_stores_initialised (λ t, t) ex_ping emptyApiStore eq_refl H1 H2 H3)
    as (Hr & _ & _ & _ & _ & _ & _ & _ & Ht & _ & Hm).
  split_and!; [reflexivity|exact H1|exact H2|exact H3|exact Hr|exact Ht|exact Hm].
Defined.

(** [ex_declaration_again] after [ex_declaration]: the same operation. *)
Lemma Reg_same_operation_witness :
  apiHandlerMap (Reg (λ t, t) ex_declaration ex_store_again).2
    !! computedId (λ t, t) (strArrays ex_store_again) (paramArrays ex_store_again)
         ex_declaration = Some 0
  ∧ (Reg (λ t, t) ex_declaration_again (Reg (λ t, t) ex_declaration ex_store_again).2).1
    = Some 0
  ∧ apiHandlers
      (Reg (λ t, t) ex_declaration_again (Reg (λ t, t) ex_declaration ex_store_again).2).2
    = [0].
Proof.
  set (σ := (Reg (λ t, t) ex_declaration ex_store_again).2).
  assert (Hv : validSlice (strArrays ex_store_again) (Types ex_declaration)).
  { right. exists ex_types. split; [reflexivity|]. simpl. lia. }
  assert (Hp : validSlice (paramArrays ex_store_again) (Params ex_declaration)).
  { right. exists ex_params. split; [reflexivity|]. simpl. lia. }
  assert (Hh : apiHandlerMap σ
                 !! computedId (λ t, t) (strArrays ex_store_again)
                      (paramArrays ex_store_again) ex_declaration = Some 0)
    by reflexivity.
  assert (Hv' : validSlice (strArrays σ) (Types ex_declaration_again)).
  { right. exists ["get"; "POST"; "GET"; "POST"]. split; [reflexivity|]. simpl. lia. }
  assert (Hp' : validSlice (paramArrays σ) (Params ex_declaration_again)).
  { right. exists ex_params_more. split; [reflexivity|]. simpl. lia. }
  assert (Hty : ∀ x, x ∈ readSlice (strArrays σ) (Types ex_declaration_again)
                   ↔ x ∈ readSlice (strArrays ex_store_again) (Types ex_declaration)).
  { intros x.
    change (readSlice (strArrays σ) (Types ex_declaration_again))
      with ["get"; "POST"; "GET"; "POST"].
    change (readSlice (strArrays ex_store_again) (Types ex_declaration))
      with ["GET"; "get"; "POST"].
    rewrite !elem_of_cons, !elem_of_nil. tauto. }
  destruct (Reg_same_operation (λ t, t) (strArrays ex_store_again)
              (paramArrays ex_store_again) ex_declaration σ ex_declaration_again 0
              Hv Hp Hh eq_refl Hv' Hp' eq_refl eq_refl Hty eq_refl)
    as (_ & Hr & _ & Hl).
  split_and!; [exact Hh|exact Hr|by rewrite Hl].
Defined.

(** ** The prefix-bound registry *)



Lemma NewVirtHandler_unfold hw prefix ms d pr pa τ :
  let j := prefixIdentity hw (creatPrefix prefix).1.1 (readSlice (v_strArrays τ) ms) in
  let v := mkVirtHandler j ms (creatPrefix prefix).1.1 (creatPrefix prefix).1.2
                         (creatPrefix prefix).2 d pr pa in
  NewVirtHandler hw prefix ms d pr pa τ
  = match virtHandlerMap τ !! j with
    | Some h =>
        (Some h, mkVirtStore (v_strArrays τ) (v_paramArrays τ) (v_objects τ ++ [v])
                             (virtHandlerMap τ) (handlerMap τ))
    | None =>
        (Some (length (v_objects τ)),
         mkVirtStore (v_strArrays τ) (v_paramArrays τ) (v_objects τ ++ [v])
                     (<[j := length (v_objects τ)]> (virtHandlerMap τ))
                     (<[j := hw]> (handlerMap τ)))
    end.
Proof.
  cbv zeta. unfold NewVirtHandler.
  destruct (creatPrefix prefix) as [[cp pp] ppm]. cbn [fst snd].
  rewrite handleWareUri_id.
  set (j := prefixIdentity hw cp (readSlice (v_strArrays τ) ms)).
  unfold hasVirtHandler. cbn [virtHandlerMap].
  destruct (virtHandlerMap τ !! j) as [h|] eqn:E.
  - by rewrite bool_decide_eq_true_2 by (by eexists).
  - by rewrite bool_decide_eq_false_2 by (by intros [? ?]).
Qed.




(** X8. The first registration under an identity wins.  When the identity
    of a call is new, [NewVirtHandler] stores the descriptor made of its
    arguments and the callback; a later call with the same callback, the same
    methods and a prefix that cleans to the same path returns that
    descriptor, whatever its description, produced types and parameters are:
    they are dropped, and the stored descriptor and callback stay. *)
Theorem NewVirtHandler_first_wins c c' τ :
  let j := prefixIdentity (c_handler c) (creatPrefix (c_prefix c)).1.1
             (readSlice (v_strArrays τ) (c_methods c)) in
  let p := length (v_objects τ) in
  let r1 := virtRegister c τ in
  let r2 := virtRegister c' r1.2 in
  virtHandlerMap τ !! j = None →
  c_handler c' = c_handler c →
  (creatPrefix (c_prefix c')).1.1 = (creatPrefix (c_prefix c)).1.1 →
  readSlice (v_strArrays τ) (c_methods c') = readSlice (v_strArrays τ) (c_methods c) →
  r1.1 = Some p
  ∧ r2.1 = Some p
  ∧ v_objects r2.2 !! p
    = Some (mkVirtHandler j (c_methods c) (creatPrefix (c_prefix c)).1.1
              (creatPrefix (c_prefix c)).1.2 (creatPrefix (c_prefix c)).2
              (c_description c) (c_produces c) (c_params c))
  ∧ getHandlerMap r2.2 j = Some (c_handler c)
  ∧ virtHandlerMap r2.2 = virtHandlerMap r1.2.
Proof.
  cbv zeta. intros Hnone Hh Hcp Hms. unfold virtRegister.
  rewrite (NewVirtHandler_unfold (c_handler c)). cbv zeta. rewrite Hnone. cbn [fst snd].
  rewrite (NewVirtHandler_unfold (c_handler c')). cbv zeta.
  cbn [v_strArrays virtHandlerMap v_objects handlerMap v_paramArrays].
  rewrite Hh, Hcp, Hms, lookup_insert_eq. cbn [fst snd v_objects virtHandlerMap].
  unfold getHandlerMap. cbn [handlerMap]. rewrite lookup_insert_eq.
  split_and!; try done.
  rewrite <- app_assoc. rewrite lookup_app_r by lia. by rewrite Nat.sub_diag.
Qed.

Lemma NewVirtHandler_first_wins_witness :
  (virtRegister ex_virt_call ex_virt_store).1 = Some 0
  ∧ (virtRegister ex_virt_call_again (virtRegister ex_virt_call ex_virt_store).2).1 = Some 0
  ∧ v_description
      <$> v_objects (virtRegister ex_virt_call_again
                       (virtRegister ex_virt_call ex_virt_store).2).2 !! 0
    = Some "one user".
Proof.
  destruct (NewVirtHandler_first_wins ex_virt_call ex_virt_call_again ex_virt_store
              eq_refl eq_refl eq_refl eq_refl) as (H1 & H2 & H3 & _).
  split_and!; [exact H1|exact H2|].
  exact (f_equal (fmap v_description) H3).
Defined.

(** ** Cleaning twice *)

Lemma occursIn_cons_inv c d e :
  ¬ occursIn (String c "") (String d e) → c ≠ d ∧ ¬ occursIn (String c "") e.
Proof.
  intros H. split.
  - intros ->. apply H. by exists "", e.
  - intros (pre & post & ->). apply H. by exists (String d pre), post.
Qed.

Lemma Cut_char e c rest :
  ¬ occursIn (String c "") e →
  strings_Cut (e +:+ String c rest) (String c "") = Some (e, rest).
Proof.
  induction e as [|d e IH]; intros He.
  - change ("" +:+ String c rest) with (String c rest). cbn [strings_Cut stripPrefix].
    by rewrite decide_True.
  - apply occursIn_cons_inv in He as [Hcd He].
    change (String d e +:+ String c rest) with (String d (e +:+ String c rest)).
    cbn [strings_Cut stripPrefix]. rewrite decide_False by done.
    by rewrite IH.
Qed.

Lemma Cut_absent s sep : ¬ occursIn sep s → strings_Cut s sep = None.
Proof.
  intros H. destruct (strings_Cut s sep) as [[b a]|] eqn:E; [|done].
  apply Cut_Some in E as [-> _]. destruct H. by eexists _, _.
Qed.

Lemma Split_rounds_Join elems c rounds :
  elems ≠ [] →
  Forall (λ e, ¬ occursIn (String c "") e) elems →
  String.length (strings_Join elems (String c "")) ≤ rounds →
  Split_rounds rounds (strings_Join elems (String c "")) (String c "") = elems.
Proof.
  intros Hne Hall. revert rounds.
  induction elems as [|e elems IH]; intros rounds Hlen; [done|].
  apply Forall_cons in Hall as [He Hall].
  destruct elems as [|e2 elems].
  - unfold strings_Join. simpl String.concat.
    destruct rounds; cbn [Split_rounds]; by rewrite Cut_absent.
  - rewrite Join_cons in Hlen |- * by done.
    change (String c "" +:+ ?x) with (String c x) in *.
    rewrite str_app_length in Hlen. cbn [String.length] in Hlen.
    destruct rounds as [|rounds]; [lia|]. cbn [Split_rounds].
    rewrite Cut_char by done. f_equal. apply IH; [done|done|lia].
Qed.

Lemma clean_fold_elements elems out :
  Forall cleanElement elems →
  fold_left (clean_step true) elems out = rev elems ++ out.
Proof.
  revert out. induction elems as [|e elems IH]; intros out Hall; [done|].
  apply Forall_cons in Hall as [(He1 & He2 & He3 & _) Hall].
  simpl. rewrite IH by done. unfold clean_step.
  rewrite !decide_False by done. by rewrite <- app_assoc.
Qed.

Lemma path_elements_rooted q :
  path_elements ("/" +:+ q) = "" :: path_elements q.
Proof.
  unfold path_elements, strings_Split.
  change ("/" +:+ q) with (String "/"%char q). cbn [String.length Split_rounds].
  change (String "/"%char q) with ("" +:+ String "/"%char q).
  rewrite Cut_char; [done|].
  intros (pre & post & H). by destruct pre.
Qed.

Lemma path_Clean_idempotent p : cleanRooted p → path_Clean p = p.
Proof.
  intros (elems & -> & Hall).
  unfold path_Clean. rewrite decide_False by done.
  change (is_rooted ("/" +:+ strings_Join elems "/")) with true. cbv iota.
  rewrite path_elements_rooted. cbn [fold_left]. unfold clean_step at 2.
  rewrite decide_True by done.
  destruct elems as [|e elems].
  - reflexivity.
  - assert (Hsplit : path_elements (strings_Join (e :: elems) "/") = e :: elems).
    { apply Split_rounds_Join; [done| |done].
      eapply Forall_impl; [exact Hall|]. by intros x (_ & _ & _ & ?). }
    rewrite Hsplit, clean_fold_elements by done.
    by rewrite app_nil_r, rev_involutive.
Qed.

Lemma path_Clean_extra_slash q :
  is_rooted q = true → path_Clean ("/" +:+ q) = path_Clean q.
Proof.
  intros Hq. unfold path_Clean.
  rewrite !decide_False by (by destruct q).
  change (is_rooted ("/" +:+ q)) with true. rewrite Hq. cbv iota.
  rewrite path_elements_rooted. cbn [fold_left]. unfold clean_step at 2.
  by rewrite decide_True.
Qed.

Lemma path_Join_cleanRooted p : cleanRooted p → path_Join ["/"; p] = p.
Proof.
  intros Hp. pose proof (cleanRooted_is_rooted _ Hp) as Hr.
  rewrite path_Join_root.
  rewrite (path_Clean_extra_slash ("/" +:+ p)) by done.
  rewrite path_Clean_extra_slash by done. by apply path_Clean_idempotent.
Qed.

(** X9. In [creatPrefix] the call of [path.Clean] on the result of
    [path.Join] changes nothing, [path.Join] having cleaned already.  When
    the cleaned path has no ["?"], it is the cleaned prefix, and
    [creatPrefix] on the cleaned prefix gives again the same prefix, path
    part and parameter part.  With a ["?"] this can fail: the cleaned prefix
    of ["a/?x"] ends in a slash, which a second pass removes. *)
Theorem creatPrefix_fixed_point :
  (∀ raw,
     let joined := path_Clean (path_Join ["/"; raw]) in
     joined = path_Join ["/"; raw]
     ∧ (¬ occursIn "?" joined →
          (creatPrefix raw).1.1 = joined
          ∧ creatPrefix (creatPrefix raw).1.1 = creatPrefix raw))
  ∧ creatPrefix "a/?x" = ("/a/", "/a/", "")
  ∧ creatPrefix "/a/" = ("/a", "/a", "").
Proof.
  split; [|split; reflexivity].
  intros raw. cbv zeta.
  assert (Hj : cleanRooted (path_Join ["/"; raw])).
  { rewrite path_Join_root. by apply path_Clean_rooted. }
  rewrite (path_Clean_idempotent _ Hj). split; [done|]. intros Hq.
  assert (Hcp : (creatPrefix raw).1.1 = path_Join ["/"; raw]).
  { unfold creatPrefix. cbn [fst snd].
    rewrite (path_Clean_idempotent _ Hj), Split_hd. by rewrite Cut_absent. }
  split; [done|]. rewrite Hcp.
  unfold creatPrefix. rewrite (path_Join_cleanRooted _ Hj).
  by rewrite !(path_Clean_idempotent _ Hj).
Qed.


(** ** Pools *)

Lemma distinctBelow_perm l l' f : l ≡ₚ l' → distinctBelow l f → distinctBelow l' f.
Proof. intros Hp [H1 H2]. split; by rewrite <- Hp. Qed.

Lemma Get_distinct pool f x pool' f' before after :
  Fasthttp.Get pool f = (x, pool', f') →
  distinctBelow (before ++ pool ++ after) f →
  distinctBelow (x :: before ++ pool' ++ after) f'.
Proof.
  unfold Fasthttp.Get. destruct pool as [|y pool]; intros [= <- <- <-] H.
  - destruct H as [Hnd Hlt]. split.
    + apply NoDup_cons. split; [|done]. intros Hin.
      eapply (proj1 (Forall_forall _ _) Hlt) in Hin. lia.
    + apply Forall_cons. split; [lia|]. eapply Forall_impl; [done|]. simpl. lia.
  - revert H. apply distinctBelow_perm. simpl. by rewrite <- Permutation_middle.
Qed.

Lemma Put_distinct x f before pool after :
  distinctBelow (x :: before ++ pool ++ after) f →
  distinctBelow (before ++ Fasthttp.Put pool x ++ after) f.
Proof.
  apply distinctBelow_perm. unfold Fasthttp.Put. simpl. by rewrite Permutation_middle.
Qed.

Section PoolFacts.
Context {World : Type}.
Variable rqHdr_reset rqURL_reset : nat → World → World.
Variable rq_reset : nat → nat → nat → World → World.
Variable rsHdr_reset : nat → World → World.
Variable rs_reset : nat → nat → World → World.
Variable handler : nat → nat → World → option World.

Local Abbreviation acquire :=
  (Fasthttp.acquire World rqHdr_reset rqURL_reset rq_reset rsHdr_reset rs_reset).
Local Abbreviation ServeHTTP :=
  (Fasthttp.ServeHTTP World rqHdr_reset rqURL_reset rq_reset rsHdr_reset rs_reset handler).

Lemma acquire_distinct ps w a ps1 w1 :
  poolsDistinct ps → acquire ps w = (a, ps1, w1) →
  distinctBelow (wrappers a ++ allPooled ps1) (Fasthttp.fresh ps1).
Proof.
  unfold poolsDistinct, allPooled, Fasthttp.acquire, wrappers.
  destruct ps as [p1 p2 p3 p4 p5 f]. cbn [Fasthttp.request Fasthttp.response
    Fasthttp.requestHeader Fasthttp.responseHeader Fasthttp.url Fasthttp.fresh].
  intros H0.
  destruct (Fasthttp.Get p1 f) as [[x1 q1] f1] eqn:E1.
  destruct (Fasthttp.Get p3 f1) as [[x3 q3] f3] eqn:E3.
  destruct (Fasthttp.Get p5 f3) as [[x5 q5] f5] eqn:E5.
  destruct (Fasthttp.Get p2 f5) as [[x2 q2] f2] eqn:E2.
  destruct (Fasthttp.Get p4 f2) as [[x4 q4] f4] eqn:E4.
  intros [= <- <- <-]. cbn [Fasthttp.request Fasthttp.response
    Fasthttp.requestHeader Fasthttp.responseHeader Fasthttp.url Fasthttp.fresh
    Fasthttp.rq Fasthttp.rqHdr Fasthttp.rqURL Fasthttp.rs Fasthttp.rsHdr].
  assert (H1 : distinctBelow (x1 :: [] ++ q1 ++ (p2 ++ p3 ++ p4 ++ p5)) f1)
    by (by apply (Get_distinct _ _ _ _ _ _ _ E1)).
  assert (H3 : distinctBelow (x3 :: (x1 :: q1 ++ p2) ++ q3 ++ (p4 ++ p5)) f3).
  { apply (Get_distinct _ _ _ _ _ _ _ E3). simpl. by rewrite <- !app_assoc. }
  assert (H5 : distinctBelow (x5 :: (x3 :: x1 :: q1 ++ p2 ++ q3 ++ p4) ++ q5 ++ []) f5).
  { apply (Get_distinct _ _ _ _ _ _ _ E5). simpl in *.
    by rewrite <- !app_assoc, app_nil_r in *. }
  assert (H2 : distinctBelow (x2 :: (x5 :: x3 :: x1 :: q1) ++ q2 ++ (q3 ++ p4 ++ q5)) f2).
  { apply (Get_distinct _ _ _ _ _ _ _ E2). simpl in *.
    by rewrite <- !app_assoc, ?app_nil_r in *. }
  assert (H4 : distinctBelow (x4 :: (x2 :: x5 :: x3 :: x1 :: q1 ++ q2 ++ q3) ++ q4 ++ q5) f4).
  { apply (Get_distinct _ _ _ _ _ _ _ E4). simpl in *.
    by rewrite <- !app_assoc in *. }
  revert H4. apply distinctBelow_perm. simpl. rewrite <- !app_assoc.
  apply (Permutation_app_tail (q1 ++ q2 ++ q3 ++ q4 ++ q5)
           (reverse_Permutation [x1; x3; x5; x2; x4])).
Qed.

Lemma release_distinct a ps1 :
  distinctBelow (wrappers a ++ allPooled ps1) (Fasthttp.fresh ps1) →
  poolsDistinct (Fasthttp.release a ps1).
Proof.
  unfold poolsDistinct, allPooled, wrappers, Fasthttp.release, Fasthttp.Put.
  destruct a as [x1 x3 x5 x2 x4], ps1 as [q1 q2 q3 q4 q5 f].
  cbn [Fasthttp.request Fasthttp.response Fasthttp.requestHeader
       Fasthttp.responseHeader Fasthttp.url Fasthttp.fresh
       Fasthttp.rq Fasthttp.rqHdr Fasthttp.rqURL Fasthttp.rs Fasthttp.rsHdr].
  apply distinctBelow_perm. simpl. apply perm_skip.
  rewrite <- !Permutation_middle.
  etrans; [apply (Permutation_sym (Permutation_middle [x3; x5]
                    (x4 :: q1 ++ q2 ++ q3 ++ q4 ++ q5) x2))|].
  simpl. do 2 apply perm_skip. apply perm_swap.
Qed.

(** X10. The pools hand no wrapper out twice.  When no wrapper is in the
    pools twice and every wrapper in them has been made already, the five
    wrappers a dispatch takes are five different ones, none of them is left
    in a pool while the handler runs, and when the handler has returned the
    pools again hold no wrapper twice. *)
Theorem dispatch_wrappers_exclusive ps w a ps1 w1 :
  poolsDistinct ps → acquire ps w = (a, ps1, w1) →
  NoDup (wrappers a)
  ∧ (∀ x, x ∈ wrappers a → x ∉ allPooled ps1)
  ∧ ∀ ps2 w2, ServeHTTP ps w = Some (ps2, w2) → poolsDistinct ps2.
Proof.
  intros Hd Hacq. pose proof (acquire_distinct _ _ _ _ _ Hd Hacq) as H.
  pose proof (proj1 H) as Hn. apply NoDup_app in Hn as (Hw & Hout & _).
  split; [done|]. split; [done|].
  intros ps2 w2. unfold Fasthttp.ServeHTTP. rewrite Hacq.
  destruct (handler _ _ _); [|done]. intros [= <- _].
  by apply release_distinct.
Qed.

End PoolFacts.

(** A dispatch on pools that hold a request and a request header already. *)
Lemma dispatch_wrappers_exclusive_witness :
  NoDup [0; 1; 2; 3; 4]
  ∧ (∀ x, x ∈ [0; 1; 2; 3; 4] → x ∉ @nil nat)
  ∧ ∀ ps2 w2,
      Fasthttp.ServeHTTP unit (λ _ w, w) (λ _ w, w) (λ _ _ _ w, w) (λ _ w, w)
        (λ _ _ w, w) (λ _ _ w, Some w) (Fasthttp.mkPools [0] [] [1] [] [] 2) tt
      = Some (ps2, w2) → poolsDistinct ps2.
Proof.
  apply (dispatch_wrappers_exclusive (World := unit) (λ _ w, w) (λ _ w, w)
           (λ _ _ _ w, w) (λ _ w, w) (λ _ _ w, w) (λ _ _ w, Some w)
           (Fasthttp.mkPools [0] [] [1] [] [] 2) tt
           (Fasthttp.mkAcquired 0 1 2 3 4) (Fasthttp.mkPools [] [] [] [] [] 5) tt).
  - unfold poolsDistinct, distinctBelow, allPooled. simpl. split.
    + apply NoDup_cons. split; [|apply NoDup_singleton].
      intros [=]%list_elem_of_singleton.
    + apply Forall_cons. split; [lia|]. apply Forall_cons. split; [lia|]. apply Forall_nil_2.
  - reflexivity.
Defined.

(** ** The server *)

Section ServerFacts.
Context {Listener Logger World : Type}.
Variable GlobalLogger : Logger.
Variable Logger_Error : Logger → string → World → option World.
Variable rqHdr_reset rqURL_reset : nat → World → World.
Variable rq_reset : nat → nat → nat → World → World.
Variable rsHdr_reset : nat → World → World.
Variable rs_reset : nat → nat → World → World.

Local Abbreviation Server := (FasthttpServer.Server Listener Logger World).
Local Abbreviation WithConfig := (FasthttpServer.WithConfig Listener Logger World GlobalLogger).
Local Abbreviation New := (FasthttpServer.New Listener Logger World GlobalLogger).
Local Abbreviation WithTLS := (FasthttpServer.WithTLS Listener Logger World GlobalLogger).
Local Abbreviation SetHandler := (FasthttpServer.SetHandler Listener Logger World).
Local Abbreviation SetLogger := (FasthttpServer.SetLogger Listener Logger World).
Local Abbreviation Start := (FasthttpServer.Start Listener Logger World).
Local Abbreviation ServeHTTP :=
  (FasthttpServer.ServeHTTP Listener Logger World Logger_Error
     rqHdr_reset rqURL_reset rq_reset rsHdr_reset rs_reset).

(** X12. A server made by [New] or [WithTLS] never serves on a listener of
    its own: [Start] listens on the address given.  [New] serves without
    TLS; [WithTLS] serves with TLS exactly when both file names are not
    empty, and with one of them empty it starts as the server of [New] does,
    reporting nothing.  Setting a handler or a logger does not change what
    [Start] does. *)
Theorem Start_of_constructors addr certfile keyfile :
  Start (New addr) = Fasthttp.ListenAndServe addr
  ∧ Fasthttp.servesOn (Start (WithTLS addr certfile keyfile)) = inl addr
  ∧ (Fasthttp.usesTLS (Start (WithTLS addr certfile keyfile)) = true
       ↔ certfile ≠ "" ∧ keyfile ≠ "")
  ∧ (Start (WithTLS addr certfile keyfile)
       = if decide (certfile = "" ∨ keyfile = "") then Start (New addr)
         else Fasthttp.ListenAndServeTLS addr certfile keyfile)
  ∧ ∀ s h l, Start (SetHandler s h) = Start s ∧ Start (SetLogger s l) = Start s.
Proof.
  unfold FasthttpServer.Start, FasthttpServer.New, FasthttpServer.WithTLS,
    FasthttpServer.WithConfig, Fasthttp.Start, Fasthttp.startDefaultListener.
  cbn. split; [done|].
  destruct (decide (certfile ≠ "" ∧ keyfile ≠ "")) as [[H1 H2]|Hn]; cbn.
  - split; [done|]. split; [done|]. split; [|done].
    destruct (decide (certfile = "" ∨ keyfile = "")) as [[?|?]|?]; done.
  - split; [done|]. split; [split; [done|by intros ?]|]. split; [|done].
    destruct (decide (certfile = "" ∨ keyfile = "")) as [?|Hd]; [done|].
    destruct Hn. split; intros ->; apply Hd; eauto.
Qed.

(** X13. A dispatch on a new server whose handler was never set takes five
    new wrappers, resets them, reports that the handler is not set, and puts
    the wrappers back.  The report goes to the logger the server has at the
    dispatch, not to the one it was made with; when that logger panics, so
    does the dispatch, and nothing is put back. *)
Theorem dispatch_without_handler c l w :
  ServeHTTP (SetLogger (WithConfig c) l) w
  = match Logger_Error l "handler not set, use `SetHandler()` to set it."
            (rs_reset 3 4 (rsHdr_reset 4 (rq_reset 0 1 2
               (rqURL_reset 2 (rqHdr_reset 1 w))))) with
    | Some w' =>
        Some (FasthttpServer.mkServer c FasthttpServer.handlerNotSet l
                (Fasthttp.mkPools [0] [3] [1] [4] [2] 5), w')
    | None => None
    end.
Proof.
  unfold FasthttpServer.ServeHTTP, Fasthttp.ServeHTTP. cbn.
  unfold FasthttpServer.handler_ServeHTTP. cbn.
  by destruct (Logger_Error _ _ _).
Qed.

End ServerFacts.

(** ** What an identity determines *)



Lemma char_cut_inj c x y r r' :
  ¬ occursIn (String c "") x → ¬ occursIn (String c "") y →
  x +:+ String c r = y +:+ String c r' → x = y ∧ r = r'.
Proof.
  intros Hx Hy H. apply (f_equal (λ s, strings_Cut s (String c ""))) in H.
  rewrite !Cut_char in H by done. by injection H.
Qed.

Lemma inBrackets_inj l l' :
  Forall (λ x, ¬ occursIn "]" x) l → Forall (λ x, ¬ occursIn "]" x) l' →
  inBrackets l = inBrackets l' → l = l'.
Proof.
  intros Hl. revert l'. induction Hl as [|x l Hx Hl IH]; intros l' Hl' H.
  - destruct Hl' as [|y l' _ _]; [done|]. by rewrite inBrackets_cons in H.
  - destruct Hl' as [|y l' Hy Hl']; [by rewrite inBrackets_cons in H|].
    rewrite !inBrackets_cons in H.
    change (String "[" (x +:+ String "]" (inBrackets l))
            = String "[" (y +:+ String "]" (inBrackets l'))) in H.
    injection H as H. apply char_cut_inj in H as [-> H]; [|done..].
    f_equal. by apply IH.
Qed.

Lemma bracketed_identity_inj n n' x l x' l' :
  ¬ occursIn "[" n → ¬ occursIn "[" n' →
  Forall (λ x, ¬ occursIn "]" x) (x :: l) → Forall (λ x, ¬ occursIn "]" x) (x' :: l') →
  n +:+ inBrackets (x :: l) = n' +:+ inBrackets (x' :: l') →
  n = n' ∧ x :: l = x' :: l'.
Proof.
  intros Hn Hn' Hl Hl' H.
  assert (H' : n +:+ String "[" (x +:+ String "]" (inBrackets l))
               = n' +:+ String "[" (x' +:+ String "]" (inBrackets l'))).
  { by rewrite !inBrackets_cons in H. }
  apply char_cut_inj in H' as [-> H']; [|done..]. split; [done|].
  apply inBrackets_inj; [done..|]. rewrite !inBrackets_cons. by f_equal.
Qed.





(** X15. [NewVirtHandler] returns to a call the descriptor an earlier call
    stored only when the two calls agree: for callbacks whose symbolic
    identity has no ["["], and prefixes and methods without ["]"], a second
    call that gets the descriptor of the first has the symbolic identity,
    the cleaned prefix and the methods of the first, the methods in the
    same order. *)
Theorem NewVirtHandler_same_only_if_equal c c' τ :
  let strs := v_strArrays τ in
  let j := prefixIdentity (c_handler c) (creatPrefix (c_prefix c)).1.1
             (readSlice strs (c_methods c)) in
  virtConsistent τ →
  virtHandlerMap τ !! j = None →
  ¬ occursIn "[" (symbolicIdentity (c_handler c)) →
  ¬ occursIn "[" (symbolicIdentity (c_handler c')) →
  Forall (λ x, ¬ occursIn "]" x)
    ((creatPrefix (c_prefix c)).1.1 :: readSlice strs (c_methods c)) →
  Forall (λ x, ¬ occursIn "]" x)
    ((creatPrefix (c_prefix c')).1.1 :: readSlice strs (c_methods c')) →
  (virtRegister c' (virtRegister c τ).2).1 = (virtRegister c τ).1 →
  symbolicIdentity (c_handler c') = symbolicIdentity (c_handler c)
  ∧ (creatPrefix (c_prefix c')).1.1 = (creatPrefix (c_prefix c)).1.1
  ∧ readSlice strs (c_methods c') = readSlice strs (c_methods c).
Proof.
  cbv zeta. intros [HK _] Hnew Hn Hn' Hl Hl'. unfold virtRegister.
  rewrite (NewVirtHandler_unfold (c_handler c)). cbv zeta. rewrite Hnew. cbn [fst snd].
  rewrite NewVirtHandler_unfold. cbv zeta. cbn [v_strArrays virtHandlerMap v_objects].
  set (j := prefixIdentity (c_handler c) _ _) in *.
  set (j' := prefixIdentity (c_handler c') _ _).
  destruct (decide (j' = j)) as [Heq|Hne].
  - intros _. unfold j, j', prefixIdentity in Heq.
    apply bracketed_identity_inj in Heq as [? [= ? ?]]; done.
  - rewrite lookup_insert_ne by done.
    destruct (virtHandlerMap τ !! j') as [h|] eqn:E; cbn [fst].
    + intros [= ->]. destruct (HK _ _ E) as (v & Hv%lookup_lt_Some & _). lia.
    + rewrite length_app. simpl. intros [=]. lia.
Qed.

Section Determined.
Variable G : string → string.


End Determined.

(** The two calls of [ex_virt_call] and [ex_virt_call_again]: the second
    gets the descriptor of the first, and its prefix cleans to the same
    path. *)
Lemma NewVirtHandler_same_only_if_equal_witness :
  symbolicIdentity (c_handler ex_virt_call_again) = symbolicIdentity (c_handler ex_virt_call)
  ∧ (creatPrefix (c_prefix ex_virt_call_again)).1.1
    = (creatPrefix (c_prefix ex_virt_call)).1.1
  ∧ readSlice (v_strArrays ex_virt_store) (c_methods ex_virt_call_again)
    = readSlice (v_strArrays ex_virt_store) (c_methods ex_virt_call).
Proof.
  assert (Hc : virtConsistent ex_virt_store).
  { split.
    - intros j p H. simpl in H. by rewrite lookup_empty in H.
    - intros j. unfold getHandlerMap. simpl. by rewrite !lookup_empty. }
  assert (Hl : Forall (λ x, ¬ occursIn "]" x) ["/users/:id"; "GET"; "POST"]).
  { repeat (apply Forall_cons; split; [by apply Cut_None|]). apply Forall_nil_2. }
  apply (NewVirtHandler_same_only_if_equal ex_virt_call ex_virt_call_again ex_virt_store).
  - exact Hc.
  - apply lookup_empty.
  - by apply Cut_None.
  - by apply Cut_None.
  - exact Hl.
  - exact Hl.
  - reflexivity.
Defined.


(** ** Arrays shared with the caller *)

Lemma str_app_inv_head (s a b : string) : s +:+ a = s +:+ b → a = b.
Proof.
  induction s as [|c s IH]; [done|].
  change (String c (s +:+ a) = String c (s +:+ b) → a = b). intros [= H]. by apply IH.
Qed.

Lemma setIndex_valid {T} (m m' : list (list T)) s s' i x :
  validSlice m s' → setIndex m s i x = Some m' → validSlice m' s'.
Proof.
  intros [?|(arr & Harr & Hlen)] [_ ->]%setIndex_Some; [by left|right].
  destruct (decide (base s' = base s)) as [Heq|Hne].
  - exists (<[off s + i := x]> arr). rewrite Heq, list_lookup_alter_eq, <- Heq, Harr.
    split; [done|]. by rewrite length_insert.
  - exists arr. by rewrite list_lookup_alter_ne.
Qed.

(** X17. [NewVirtHandler] does not copy its arguments: the descriptor it
    stores holds the slices it was given.  An assignment of the caller to an
    element of the methods passed is therefore seen in what [Methods] returns
    afterwards, while the identity of the descriptor stays the one computed
    from the methods as they were; for a prefix and methods without ["]"] it
    is then no longer the identity of what the descriptor shows. *)
Theorem NewVirtHandler_shares_arguments c τ i m strs' :
  let strs := v_strArrays τ in
  let cp := (creatPrefix (c_prefix c)).1.1 in
  let given := readSlice strs (c_methods c) in
  let r := virtRegister c τ in
  virtHandlerMap τ !! prefixIdentity (c_handler c) cp given = None →
  validSlice strs (c_methods c) →
  setIndex strs (c_methods c) i m = Some strs' →
  ∃ v, r.1 = Some (length (v_objects τ))
    ∧ v_objects r.2 !! length (v_objects τ) = Some v
    ∧ v_methods v = c_methods c ∧ v_produces v = c_produces c ∧ v_params v = c_params c
    ∧ readSlice (VirtHandler_Methods v strs').1 (VirtHandler_Methods v strs').2
      = <[i := m]> given
    ∧ VirtHandler_Id v = handleWareUri (c_handler c) given cp
    ∧ (Forall (λ x, ¬ occursIn "]" x) (cp :: given) → ¬ occursIn "]" m →
       given !! i ≠ Some m →
       VirtHandler_Id v
       ≠ handleWareUri (c_handler c) (readSlice strs' (v_methods v)) (VirtHandler_Prefix v)).
Proof.
  cbv zeta. intros Hnew Hv Hset. unfold virtRegister.
  rewrite NewVirtHandler_unfold. cbv zeta. rewrite Hnew. cbn [fst snd v_objects].
  eexists. split; [done|]. split.
  { rewrite lookup_app_r by lia. by rewrite Nat.sub_diag. }
  cbn [v_methods v_produces v_params VirtHandler_Id v_id VirtHandler_Prefix v_prefix].
  pose proof (setIndex_read _ _ _ _ _ Hv Hset) as Hread.
  split_and!; try done.
  - set (v := mkVirtHandler _ _ _ _ _ _ _ _).
    assert (Hv' : validSlice strs' (v_methods v)) by (by eapply setIndex_valid).
    destruct (Methods_copies v strs' Hv') as [-> ->].
    pose proof (allocArray_read strs' (readSlice strs' (v_methods v))) as Hr.
    unfold allocArray in Hr. cbn [fst snd] in Hr.
    rewrite readSlice_length in Hr by done. by rewrite Hr, <- Hread.
  - by rewrite handleWareUri_id.
  - intros Hl Hm Hne. rewrite handleWareUri_id, Hread. unfold prefixIdentity.
    intros H%str_app_inv_head. apply inBrackets_inj in H.
    + injection H as H. apply Hne. rewrite H at 1. apply list_lookup_insert_eq.
      apply setIndex_Some in Hset as [Hi _]. by rewrite readSlice_length.
    + done.
    + apply Forall_cons in Hl as [? ?]. apply Forall_cons. split; [done|].
      by apply Forall_insert.
Qed.

Section CallersArrays.
Variable G : string → string.

(** X18. [Reg] works on a copy of the declaration, but on the arrays of the
    caller.  Whether it stores the declaration or finds the operation
    registered, the caller's types are afterwards the sorted types without
    repeats, followed, in the places the removed repeats leave, by copies of
    the greatest type; the caller's parameters are the declared ones with
    every path parameter required; all other arrays are as they were. *)
Theorem Reg_rewrites_declared_arrays a σ :
  inited a = false →
  validSlice (strArrays σ) (Types a) →
  validSlice (paramArrays σ) (Params a) →
  let declared := readSlice (strArrays σ) (Types a) in
  let kept := normalizedTypes declared in
  let r := Reg G a σ in
  readSlice (strArrays r.2) (Types a)
    = kept ++ replicate (length declared - length kept)
                        (default "" (last (sortStrings declared)))
  ∧ readSlice (paramArrays r.2) (Params a)
    = forceRequired <$> readSlice (paramArrays σ) (Params a)
  ∧ (∀ b, b < length (strArrays σ) → len (Types a) = 0 ∨ b ≠ base (Types a) →
       strArrays r.2 !! b = strArrays σ !! b)
  ∧ (∀ b, len (Params a) = 0 ∨ b ≠ base (Params a) →
       paramArrays r.2 !! b = paramArrays σ !! b).
Proof.
  intros Hi Hv Hp. cbv zeta.
  destruct (Reg_get_or_create G a σ Hi) as (_ & -> & -> & _).
  pose proof (readSlice_length _ _ Hv) as Hlen.
  destruct (initTypes_keeps G (strArrays σ) a Hv) as (Hk & _).
  injection Hk as _ HP _ _ _ _.
  set (t := initTypes G (strArrays σ) a) in *.
  assert (Hp' : validSlice (paramArrays σ) (Params t.2)) by (by rewrite HP).
  destruct (initParamsAndSuffix_fields _ _ Hp') as (_ & HP' & Hr & _).
  rewrite HP', HP in Hr.
  assert (Hpars : ∀ b, len (Params a) = 0 ∨ b ≠ base (Params a) →
            (initParamsAndSuffix (paramArrays σ) t.2).1 !! b = paramArrays σ !! b).
  { intros b Hb. unfold initParamsAndSuffix. rewrite initParamsAndSuffix_loop_spec.
    cbn [fst]. rewrite HP. destruct Hb as [H0|Hb].
    - rewrite (readSlice_empty _ _ H0), fmap_nil. by rewrite writeSlice_nil.
    - by rewrite writeSlice_lookup_ne. }
  destruct (decide (len (Types a) = 0)) as [H0|H0].
  - assert (Ht : t.1 = strArrays σ ++ [allMethods]).
    { unfold t. by rewrite initTypes_empty. }
    rewrite Ht, !(readSlice_empty _ _ H0). split_and!; [done|done| |done].
    intros b Hb _. by rewrite lookup_app_l.
  - destruct (initTypes_nonempty_read G (strArrays σ) a Hv H0) as (_ & _ & Hc & _ & _ & Ho).
    fold t in Hc, Ho. rewrite Hc, Hlen. split_and!; [done|done| |done].
    intros b _ [?|Hb]; [done|]. by apply Ho.
Qed.

End CallersArrays.

(** [ex_virt_call] is registered; the caller then writes ["PUT"] over the
    second of the methods passed. *)
Lemma NewVirtHandler_shares_arguments_witness :
  ∃ v, v_objects (virtRegister ex_virt_call ex_virt_store).2 !! 0 = Some v
    ∧ readSlice (VirtHandler_Methods v [["GET"; "PUT"]; ["application/json"]]).1
                (VirtHandler_Methods v [["GET"; "PUT"]; ["application/json"]]).2
      = ["GET"; "PUT"]
    ∧ VirtHandler_Id v = "main.users[/users/:id][GET][POST]".
Proof.
  assert (Hv : validSlice (v_strArrays ex_virt_store) (c_methods ex_virt_call)).
  { right. exists ["GET"; "POST"]. split; [reflexivity|]. simpl. lia. }
  destruct (NewVirtHandler_shares_arguments ex_virt_call ex_virt_store 1 "PUT"
              [["GET"; "PUT"]; ["application/json"]] (lookup_empty _) Hv eq_refl)
    as (v & _ & H1 & _ & _ & _ & H2 & H3 & _).
  exists v. split_and!; [exact H1|exact H2|exact H3].
Defined.

(** [ex_declaration] over the types [POST], [GET], [GET]: the caller's
    array ends as [GET], [POST], [POST]. *)
Lemma Reg_rewrites_declared_arrays_witness :
  readSlice (strArrays (Reg (λ t, t) ex_declaration
                          (mkApiStore [["POST"; "GET"; "GET"]] [ex_params] [] ∅ [])).2)
            (Types ex_declaration)
    = ["GET"; "POST"; "POST"]
  ∧ readSlice (paramArrays (Reg (λ t, t) ex_declaration
                              (mkApiStore [["POST"; "GET"; "GET"]] [ex_params] [] ∅ [])).2)
              (Params ex_declaration)
    = [mkParam "id" "path" true ExNil ""; mkParam "name" "query" false ExNil ""].
Proof.
  set (σ := mkApiStore [["POST"; "GET"; "GET"]] [ex_params] [] ∅ []).
  assert (Hv : validSlice (strArrays σ) (Types ex_declaration)).
  { right. exists ["POST"; "GET"; "GET"]. split; [reflexivity|]. simpl. lia. }
  assert (Hp : validSlice (paramArrays σ) (Params ex_declaration)).
  { right. exists ex_params. split; [reflexivity|]. simpl. lia. }
  destruct (Reg_rewrites_declared_arrays (λ t, t) ex_declaration σ eq_refl Hv Hp)
    as (H1 & H2 & _).
  split; [exact H1|exact H2].
Defined.
